(** * Verification of the statistics, base-conversion and word-count programs

    Shallow embedding of the algorithmic core of three Python programs:

    - [computeStatistics.py] (module [Stats]): quicksort, Newton square
      root, mean, median, mode, sample variance;
    - [convertNumbers.py] (module [Conv]): binary and hexadecimal
      conversion of integers;
    - [wordCount.py] (modules [Words] and [Output]): whitespace tokenizer,
      case-insensitive word counter and ordering of the listing.

    Numbers read by [computeStatistics.py] are Python floats; they are
    modelled as exact rationals ([Q]), compared with the boolean versions of
    [<] and [==] on [Q].  Python [dict]s keep insertion order; they are
    modelled as association lists in insertion order.  Python exceptions are
    modelled by an error monad. *)

From Stdlib Require Import Ascii String.
From Stdlib Require Import List Arith ZArith QArith Lia Lqa Bool.
From Stdlib Require Import Permutation Sorted SetoidList.
From Equations Require Import Equations.
Import ListNotations.

Set Implicit Arguments.
Close Scope Q_scope.

(** ** Python exceptions as an error monad *)

Inductive exn : Type :=
| ValueError (msg : string)
| IndexError
| ZeroDivisionError.

Inductive result (A : Type) : Type :=
| Ok (a : A)
| Raise (e : exn).

Arguments Ok {A} a.
Arguments Raise {A} e.

Definition bind {A B : Type} (m : result A) (k : A -> result B) : result B :=
  match m with
  | Ok a => k a
  | Raise e => Raise e
  end.

Declare Scope py_scope.
Delimit Scope py_scope with py.
Notation "x <- m ;; k" := (bind m (fun x => k))
  (at level 61, m at next level, right associativity) : py_scope.

(** ** Python dictionaries: association lists in insertion order *)

Module PyDict.
Section Dict.
Variables (K V : Type).
Variable keq : K -> K -> bool.

Definition dict := list (K * V).

(** [d.get(k)] *)
Fixpoint get (d : dict) (k : K) : option V :=
  match d with
  | [] => None
  | (k', v) :: d' => if keq k' k then Some v else get d' k
  end.

(** [d[k] = v]: an existing key keeps its position (and the key object
    first inserted); a new key goes to the end. *)
Fixpoint set (d : dict) (k : K) (v : V) : dict :=
  match d with
  | [] => [(k, v)]
  | (k', v') :: d' =>
      if keq k' k then (k', v) :: d' else (k', v') :: set d' k v
  end.

Definition keys (d : dict) : list K := map fst d.
Definition values (d : dict) : list V := map snd d.
End Dict.
End PyDict.

(** * computeStatistics.py *)

Module Stats.

Local Open Scope Q_scope.

(** [x < y] on numbers, as a boolean. *)
Definition Qlt_bool (x y : Q) : bool := negb (Qle_bool y x).

(** ** quicksort *)

(** One iteration of the partition loop. *)
Definition partition_step (pivot : Q) (st : list Q * list Q * list Q) (x : Q)
  : list Q * list Q * list Q :=
  let '(left_, middle, right_) := st in
  if Qlt_bool x pivot then (left_ ++ [x], middle, right_)
  else if Qeq_bool x pivot then (left_, middle ++ [x], right_)
  else (left_, middle, right_ ++ [x]).

(** The [for x in arr] loop of [quicksort], from three empty lists. *)
Definition partition3 (pivot : Q) (arr : list Q) : list Q * list Q * list Q :=
  fold_left (partition_step pivot) arr ([], [], []).

Definition part_left (p : list Q * list Q * list Q) : list Q := fst (fst p).
Definition part_middle (p : list Q * list Q * list Q) : list Q := snd (fst p).
Definition part_right (p : list Q * list Q * list Q) : list Q := snd p.

(** [arr[len(arr) // 2]] *)
Definition pivot_of (arr : list Q) : Q := nth (length arr / 2) arr 0.

Lemma partition3_spec (pivot : Q) (arr : list Q) :
  partition3 pivot arr =
    (filter (fun x => Qlt_bool x pivot) arr,
     filter (fun x => negb (Qlt_bool x pivot) && Qeq_bool x pivot) arr,
     filter (fun x => negb (Qlt_bool x pivot) && negb (Qeq_bool x pivot)) arr).
Proof.
  unfold partition3.
  assert (G : forall l m r,
    fold_left (partition_step pivot) arr (l, m, r) =
    (l ++ filter (fun x => Qlt_bool x pivot) arr,
     m ++ filter (fun x => negb (Qlt_bool x pivot) && Qeq_bool x pivot) arr,
     r ++ filter (fun x => negb (Qlt_bool x pivot) && negb (Qeq_bool x pivot)) arr)).
  { induction arr as [|x arr IH]; intros l m r; simpl.
    - now rewrite !app_nil_r.
    - destruct (Qlt_bool x pivot); simpl.
      + rewrite IH, <- app_assoc. reflexivity.
      + destruct (Qeq_bool x pivot); simpl; rewrite IH, <- app_assoc; reflexivity. }
  apply G.
Qed.

Lemma pivot_in (arr : list Q) : (1 < length arr)%nat -> In (pivot_of arr) arr.
Proof.
  intros H. unfold pivot_of. apply nth_In.
  apply Nat.div_lt; lia.
Qed.

Lemma filter_length_lt (f : Q -> bool) (l : list Q) (x : Q) :
  In x l -> f x = false -> (length (filter f l) < length l)%nat.
Proof.
  induction l as [|a l IH]; simpl; [tauto|].
  intros [->|Hin] Hf.
  - rewrite Hf. pose proof (filter_length_le f l). lia.
  - specialize (IH Hin Hf). destruct (f a); simpl; lia.
Qed.

Lemma Qlt_bool_irrefl (x : Q) : Qlt_bool x x = false.
Proof.
  unfold Qlt_bool. apply negb_false_iff, Qle_bool_iff, Qle_refl.
Qed.

Lemma Qeq_bool_refl' (x : Q) : Qeq_bool x x = true.
Proof. apply Qeq_bool_iff. reflexivity. Qed.

Lemma part_left_smaller (arr : list Q) :
  (1 < length arr)%nat ->
  (length (part_left (partition3 (pivot_of arr) arr)) < length arr)%nat.
Proof.
  intros H. rewrite partition3_spec. unfold part_left; simpl.
  apply filter_length_lt with (x := pivot_of arr).
  - now apply pivot_in.
  - apply Qlt_bool_irrefl.
Qed.

Lemma part_right_smaller (arr : list Q) :
  (1 < length arr)%nat ->
  (length (part_right (partition3 (pivot_of arr) arr)) < length arr)%nat.
Proof.
  intros H. rewrite partition3_spec. unfold part_right; simpl.
  apply filter_length_lt with (x := pivot_of arr).
  - now apply pivot_in.
  - rewrite Qlt_bool_irrefl, Qeq_bool_refl'. reflexivity.
Qed.

Equations? quicksort (arr : list Q) : list Q by wf (length arr) lt :=
  quicksort arr with le_lt_dec (length arr) 1 => {
    | left _ := arr
    | right Hlen :=
        quicksort (part_left (partition3 (pivot_of arr) arr))
          ++ part_middle (partition3 (pivot_of arr) arr)
          ++ quicksort (part_right (partition3 (pivot_of arr) arr)) }.
Proof.
  - now apply part_left_smaller.
  - now apply part_right_smaller.
Qed.

(** ** sqrt_newton *)

(** Python's [a / b]: raises [ZeroDivisionError] when [b == 0]. *)
Definition pydiv (a b : Q) : result Q :=
  if Qeq_bool b 0 then Raise ZeroDivisionError else Ok (a / b).

(** [n] rounds of [guess = (guess + x / guess) / 2]. *)
Fixpoint newton_loop (n : nat) (x guess : Q) : result Q :=
  match n with
  | O => Ok guess
  | S n' => (q <- pydiv x guess ;; newton_loop n' x ((guess + q) / 2))%py
  end.

Definition negative_sqrt_msg : string :=
  "No se puede calcular la raíz cuadrada de un número negativo.".

Definition sqrt_newton (x : Q) : result Q :=
  if Qlt_bool x 0 then Raise (ValueError negative_sqrt_msg)
  else if Qeq_bool x 0 then Ok 0
  else newton_loop 20 x x.

(** ** Mean, median, mode, variance *)

Definition calculate_mean (data : list Q) : Q :=
  let '(total, count) :=
    fold_left (fun '(total, count) num => (total + num, S count)) data (0, O) in
  if (0 <? count)%nat then total / inject_Z (Z.of_nat count) else 0.

(** Python list indexing [l[i]]: a negative index counts from the end, an
    index out of range raises [IndexError]. *)
Definition getitem (l : list Q) (i : Z) : result Q :=
  let n := Z.of_nat (length l) in
  let j := if (i <? 0)%Z then (i + n)%Z else i in
  if ((0 <=? j) && (j <? n))%Z then Ok (nth (Z.to_nat j) l 0)
  else Raise IndexError.

Definition calculate_median (data : list Q) : result Q :=
  let sorted_data := quicksort data in
  let n := Z.of_nat (length sorted_data) in
  if (n mod 2 =? 1)%Z then getitem sorted_data (n / 2)
  else (a <- getitem sorted_data (n / 2 - 1) ;;
        b <- getitem sorted_data (n / 2) ;;
        Ok ((a + b) / 2))%py.

(** What [calculate_mode] returns: the string saying that there is no
    unique mode, a number, or a list of numbers. *)
Inductive mode_result : Type :=
| NoUniqueMode
| ModeValue (v : Q)
| ModeList (vs : list Q).

(** [frequency[num] = frequency.get(num, 0) + 1] *)
Definition frequency_step (frequency : PyDict.dict Q nat) (num : Q)
  : PyDict.dict Q nat :=
  let old := match PyDict.get Qeq_bool frequency num with
             | Some c => c
             | None => O
             end in
  PyDict.set Qeq_bool frequency num (old + 1)%nat.

Definition build_frequency (data : list Q) : PyDict.dict Q nat :=
  fold_left frequency_step data [].

(** [max(values, default=0)] *)
Definition max_default0 (values : list nat) : nat :=
  fold_left Nat.max values O.

Definition calculate_mode (data : list Q) : mode_result :=
  let frequency := build_frequency data in
  let max_freq := max_default0 (PyDict.values frequency) in
  let modes :=
    map fst (filter (fun '(_, freq) => (freq =? max_freq)%nat) frequency) in
  if (length modes =? length frequency)%nat then NoUniqueMode
  else if (length modes =? 1)%nat then ModeValue (nth 0 modes 0)
  else ModeList modes.

(** The divisor [n - 1] is at least 1 where the division is reached. *)
Definition calculate_variance (data : list Q) (mean_value : Q) : Q :=
  let n := length data in
  if (n <=? 1)%nat then 0
  else
    let sum_squared_diff :=
      fold_left (fun sum_squared_diff num =>
                   let diff := num - mean_value in
                   sum_squared_diff + diff * diff) data 0 in
    sum_squared_diff / inject_Z (Z.of_nat n - 1).

Record stats : Type := {
  count : nat;
  mean : Q;
  median : Q;
  mode : mode_result;
  variance : Q;
  std_deviation : Q
}.

Definition compute_statistics (data : list Q) : result stats :=
  let count_ := length data in
  let mean_ := calculate_mean data in
  (median_ <- calculate_median data ;;
   let mode_ := calculate_mode data in
   let variance_ := calculate_variance data mean_ in
   std_ <- sqrt_newton variance_ ;;
   Ok {| count := count_; mean := mean_; median := median_; mode := mode_;
         variance := variance_; std_deviation := std_ |})%py.

(** What [main] does with the data it has read, before printing. *)
Inductive outcome : Type :=
| Exit (code : Z) (message : string)
| Computed (s : stats)
| Uncaught (e : exn).

Definition no_data_msg : string :=
  "No se encontraron números válidos en el archivo.".

Definition main_after_read (data : list Q) : outcome :=
  match data with
  | [] => Exit 1 no_data_msg
  | _ => match compute_statistics data with
         | Ok s => Computed s
         | Raise e => Uncaught e
         end
  end.

End Stats.

(** * Python strings

    A Python [str] is modelled as the list of its characters; [ascii]
    stands for the code points below 256. *)

Abbreviation pystr := (list ascii).

Definition str (s : string) : pystr := list_ascii_of_string s.

Fixpoint pystr_eqb (a b : pystr) : bool :=
  match a, b with
  | [], [] => true
  | c :: a', d :: b' => Ascii.eqb c d && pystr_eqb a' b'
  | _, _ => false
  end.

(** [range(n)] *)
Definition range (n : nat) : list Z := map Z.of_nat (seq 0 n).

(** * convertNumbers.py *)

Module Conv.

Local Open Scope Z_scope.

(** [str(d)] for a one-digit number [d] (the only arguments [str] receives
    here are bits). *)
Definition str_digit (d : Z) : pystr := [ascii_of_nat (48 + Z.to_nat d)].

Definition hex_digits : pystr := str "0123456789ABCDEF".

(** [hex_digits[digit]], a one-character string; [digit] is always between
    0 and 15 where this is used. *)
Definition hex_digit (digit : Z) : pystr :=
  [nth (Z.to_nat digit) hex_digits "?"%char].

Equations? binary_loop (num : Z) (binary_str : pystr) : pystr
  by wf (Z.to_nat num) lt :=
  binary_loop num binary_str with Z_gt_dec num 0 => {
    | left _ := binary_loop (num / 2) (str_digit (num mod 2) ++ binary_str)
    | right _ := binary_str }.
Proof.
  assert (num / 2 < num) by (apply Z.div_lt; lia).
  assert (0 <= num / 2) by (apply Z.div_pos; lia).
  lia.
Qed.

Definition convert_to_binary (num : Z) : pystr :=
  if num <? 0 then
    let bits := 10 in
    let mask := Z.shiftl 1 bits - 1 in
    let value := Z.land num mask in
    fold_left
      (fun binary_str i =>
         let bit := Z.land (Z.shiftr value (bits - 1 - i)) 1 in
         binary_str ++ str_digit bit)
      (range (Z.to_nat bits)) []
  else if num =? 0 then str "0"
  else binary_loop num [].

Equations? hex_loop (num : Z) (hex_str : pystr) : pystr
  by wf (Z.to_nat num) lt :=
  hex_loop num hex_str with Z_gt_dec num 0 => {
    | left _ := hex_loop (num / 16) (hex_digit (num mod 16) ++ hex_str)
    | right _ := hex_str }.
Proof.
  assert (num / 16 < num) by (apply Z.div_lt; lia).
  assert (0 <= num / 16) by (apply Z.div_pos; lia).
  lia.
Qed.

Definition convert_to_hexadecimal (num : Z) : pystr :=
  if num <? 0 then
    let bits := 32 in
    let mask := Z.shiftl 1 bits - 1 in
    let value := Z.land num mask in
    snd (fold_left
           (fun '(value, hex_str) _ =>
              let digit := Z.land value 15 in
              (value / 16, hex_digit digit ++ hex_str))
           (range 8) (value, []))
  else if num =? 0 then str "0"
  else hex_loop num [].

End Conv.

(** * wordCount.py *)

Module Words.

(** [char.isspace()] on the code points below 256. *)
Definition isspace (c : ascii) : bool :=
  let n := nat_of_ascii c in
  ((9 <=? n) && (n <=? 13)) || ((28 <=? n) && (n <=? 32))
  || (n =? 133) || (n =? 160).

Fixpoint lstrip (s : pystr) : pystr :=
  match s with
  | [] => []
  | c :: s' => if isspace c then lstrip s' else s
  end.

Definition rstrip (s : pystr) : pystr := rev (lstrip (rev s)).

(** [line.strip()] *)
Definition strip (s : pystr) : pystr := rstrip (lstrip s).

(** One iteration of [for char in line]; the state is
    [(current_word, words)]. *)
Definition scan_step (st : pystr * list pystr) (char : ascii)
  : pystr * list pystr :=
  let '(current_word, words) := st in
  if isspace char then
    match current_word with
    | [] => (current_word, words)
    | _ => ([], words ++ [current_word])
    end
  else (current_word ++ [char], words).

(** The body of [for line in f]: the words of one line are appended to
    [words]. *)
Definition line_words (words : list pystr) (line : pystr) : list pystr :=
  let line := strip line in
  match line with
  | [] => words
  | _ =>
      let '(current_word, words) := fold_left scan_step line ([], words) in
      match current_word with
      | [] => words
      | _ => words ++ [current_word]
      end
  end.

(** [read_words], on the lines of the file. *)
Definition read_words (lines : list pystr) : list pystr :=
  fold_left line_words lines [].

(** The words of a single line. *)
Definition tokenize (line : pystr) : list pystr := line_words [] line.

(** The inner loop of [count_words] on one character. *)
Definition lower_char (char : ascii) : ascii :=
  let n := nat_of_ascii char in
  if (65 <=? n) && (n <=? 90) then ascii_of_nat (n + 32) else char.

Definition lower_word (word : pystr) : pystr :=
  fold_left (fun w char => w ++ [lower_char char]) word [].

Definition count_step (freq : PyDict.dict pystr nat) (word : pystr)
  : PyDict.dict pystr nat :=
  let w := lower_word word in
  match PyDict.get pystr_eqb freq w with
  | Some c => PyDict.set pystr_eqb freq w (c + 1)
  | None => PyDict.set pystr_eqb freq w 1
  end.

Definition count_words (words : list pystr) : PyDict.dict pystr nat :=
  fold_left count_step words [].

End Words.

(** * Vocabulary of the specification *)

Module StatsSpec.

Import Stats.
Local Open Scope Q_scope.

(** Sum of the elements, and sum of squared deviations from [m], written
    as the specification words them. *)
Definition Qsum (l : list Q) : Q := fold_right Qplus 0 l.

Definition arithmetic_mean (data : list Q) : Q :=
  Qsum data / inject_Z (Z.of_nat (length data)).

Definition sum_squared_deviations (data : list Q) (m : Q) : Q :=
  Qsum (map (fun x => (x - m) * (x - m)) data).

Definition sample_variance (data : list Q) : Q :=
  sum_squared_deviations data (arithmetic_mean data)
  / inject_Z (Z.of_nat (length data) - 1).

(** Number of elements of [data] equal to [x]. *)
Definition occurrences (x : Q) (data : list Q) : nat :=
  length (filter (fun y => Qeq_bool y x) data).

(** The distinct values of [data], in order of first occurrence. *)
Fixpoint first_occurrences (data : list Q) : list Q :=
  match data with
  | [] => []
  | x :: rest =>
      x :: filter (fun y => negb (Qeq_bool y x)) (first_occurrences rest)
  end.

(** The largest number of occurrences of a value of [data]. *)
Definition max_occurrences (data : list Q) : nat :=
  list_max (map (fun x => occurrences x data) data).

(** The values of maximal frequency, in order of first occurrence. *)
Definition tied_values (data : list Q) : list Q :=
  filter (fun k => (occurrences k data =? max_occurrences data)%nat)
    (first_occurrences data).

(** Every value occurs equally often. *)
Definition all_same_frequency (data : list Q) : Prop :=
  forall x y, In x data -> In y data -> occurrences x data = occurrences y data.

(** [m] occurs more often than every value different from it. *)
Definition unique_most_frequent (m : Q) (data : list Q) : Prop :=
  In m data
  /\ forall y, In y data -> y == m \/ (occurrences y data < occurrences m data)%nat.

End StatsSpec.

Module ConvSpec.
Local Open Scope Z_scope.

(** Value of one digit character: [0]-[9], then upper-case [A]-[F]. *)
Definition digit_value (c : ascii) : option Z :=
  let n := Z.of_nat (nat_of_ascii c) in
  if (48 <=? n) && (n <=? 57) then Some (n - 48)
  else if (65 <=? n) && (n <=? 70) then Some (n - 55)
  else None.

(** Reading one more digit after the number [acc]. *)
Definition read_digit (base : Z) (acc : option Z) (c : ascii) : option Z :=
  match acc, digit_value c with
  | Some a, Some d => if d <? base then Some (a * base + d) else None
  | _, _ => None
  end.

(** The number a digit string denotes in [base], most significant digit
    first; [None] when a character is not a digit of that base. *)
Definition digits_value (base : Z) (s : pystr) : option Z :=
  fold_left (read_digit base) s (Some 0).

(** [c] is a digit of [base]. *)
Definition is_digit_of (base : Z) (c : ascii) : bool :=
  match digit_value c with
  | Some d => d <? base
  | None => false
  end.

(** No leading zero: the string is ["0"] or does not start with [0]. *)
Definition no_leading_zero (s : pystr) : Prop :=
  s = str "0" \/ exists c rest, s = c :: rest /\ c <> "0"%char.

End ConvSpec.

Module WordsSpec.
Import Words.

(** [" ".join(tokens)] *)
Fixpoint join_spaces (tokens : list pystr) : pystr :=
  match tokens with
  | [] => []
  | [t] => t
  | t :: rest => t ++ " "%char :: join_spaces rest
  end.

Definition no_space (t : pystr) : bool := forallb (fun c => negb (isspace c)) t.

(** A token: a non-empty string without whitespace. *)
Definition is_token (t : pystr) : Prop := t <> [] /\ no_space t = true.

(** [ts] are the maximal runs of non-whitespace characters of a line, in
    order: the line is read as whitespace characters and tokens, each token
    followed by a whitespace character or by the end of the line. *)
Inductive runs : pystr -> list pystr -> Prop :=
| runs_end : runs [] []
| runs_space (c : ascii) (l : pystr) (ts : list pystr) :
    isspace c = true -> runs l ts -> runs (c :: l) ts
| runs_token (t l : pystr) (ts : list pystr) :
    is_token t -> no_space (firstn 1 l) = false \/ l = [] ->
    runs l ts -> runs (t ++ l) (t :: ts).

(** An ASCII capital letter. *)
Definition is_upper (c : ascii) : bool :=
  (65 <=? nat_of_ascii c) && (nat_of_ascii c <=? 90).

(** Number of words whose folded form is [k]. *)
Definition folded_count (k : pystr) (words : list pystr) : nat :=
  length (filter (fun w => pystr_eqb (lower_word w) k) words).

(** The [for char in line] loop from the state [(cw, ws)]. *)
Definition scan (l cw : pystr) (ws : list pystr) : pystr * list pystr :=
  fold_left scan_step l (cw, ws).

(** What is returned once the characters of a line are consumed. *)
Definition finish (st : pystr * list pystr) : list pystr :=
  match fst st with
  | [] => snd st
  | _ => snd st ++ [fst st]
  end.

End WordsSpec.

(** * wordCount.py: ordering of the listing *)

Module Output.
Import Words.

(** Python's [a < b] on strings: lexicographic order on code points, a
    proper prefix being smaller. *)
Fixpoint pystr_ltb (a b : pystr) : bool :=
  match a, b with
  | _, [] => false
  | [], _ :: _ => true
  | c :: a', d :: b' =>
      if nat_of_ascii c <? nat_of_ascii d then true
      else if nat_of_ascii d <? nat_of_ascii c then false
      else pystr_ltb a' b'
  end.

(** [a > b] *)
Definition pystr_gtb (a b : pystr) : bool := pystr_ltb b a.

(** [keys[j] = v] on a list; the indices used below are in range. *)
Fixpoint list_assign (keys : list pystr) (j : nat) (v : pystr) : list pystr :=
  match keys, j with
  | [], _ => []
  | _ :: rest, O => v :: rest
  | k :: rest, S j' => k :: list_assign rest j' v
  end.

(** [if keys[j] > keys[j + 1]: keys[j], keys[j + 1] = keys[j + 1], keys[j]] *)
Definition compare_swap (keys : list pystr) (j : nat) : list pystr :=
  let a := nth j keys [] in
  let b := nth (j + 1) keys [] in
  if pystr_gtb a b then list_assign (list_assign keys j b) (j + 1) a
  else keys.

(** [for j in range(0, n - i - 1)] *)
Definition bubble_pass (n : nat) (keys : list pystr) (i : nat) : list pystr :=
  fold_left compare_swap (seq 0 (n - i - 1)) keys.

(** The ordering of the keys in [format_results]:
    [for i in range(n)] around the pass above, with [n = len(keys)]. *)
Definition sorted_keys (keys : list pystr) : list pystr :=
  let n := length keys in
  fold_left (bubble_pass n) (seq 0 n) keys.

End Output.

Module OutputSpec.
Import Output.

(** [a <= b] for Python strings: [a > b] is false. *)
Definition pystr_le (a b : pystr) : Prop := pystr_gtb a b = false.

(** One pass over the first [m + 1] elements, by recursion on the list. *)
Fixpoint bubble (m : nat) (l : list pystr) : list pystr :=
  match m, l with
  | S m', x :: y :: l' =>
      if pystr_gtb x y then y :: bubble m' (x :: l')
      else x :: bubble m' (y :: l')
  | _, _ => l
  end.

End OutputSpec.

Module ExtraSpec.
Import Stats.

(** Number of elements of [data] that are at most [m], at least [m]. *)
Definition count_le (m : Q) (data : list Q) : nat :=
  length (filter (fun x => Qle_bool x m) data).

Definition count_ge (m : Q) (data : list Q) : nat :=
  length (filter (fun x => Qle_bool m x) data).

(** Sum of the counts stored in a table. *)
Definition sum_counts (K : Type) (d : PyDict.dict K nat) : nat :=
  fold_right Nat.add O (PyDict.values d).

End ExtraSpec.

(** * Properties of computeStatistics.py *)

Module StatsProofs.

Import Stats StatsSpec.
Local Open Scope Q_scope.

(** ** Comparisons *)

Lemma Qlt_bool_iff (x y : Q) : Qlt_bool x y = true <-> x < y.
Proof.
  unfold Qlt_bool. rewrite negb_true_iff, <- not_true_iff_false, Qle_bool_iff.
  split; [apply Qnot_le_lt | apply Qlt_not_le].
Qed.

Lemma Qlt_bool_false_iff (x y : Q) : Qlt_bool x y = false <-> y <= x.
Proof.
  unfold Qlt_bool. rewrite negb_false_iff. apply Qle_bool_iff.
Qed.

Lemma Qeq_bool_false_iff (x y : Q) : Qeq_bool x y = false <-> ~ x == y.
Proof.
  rewrite <- not_true_iff_false, Qeq_bool_iff. reflexivity.
Qed.

(** ** quicksort *)

(** The recursive equation of [quicksort], as the source reads. *)
Lemma quicksort_eq (arr : list Q) :
  quicksort arr =
    if (length arr <=? 1)%nat then arr
    else quicksort (part_left (partition3 (pivot_of arr) arr))
           ++ part_middle (partition3 (pivot_of arr) arr)
           ++ quicksort (part_right (partition3 (pivot_of arr) arr)).
Proof.
  etransitivity; [apply quicksort_equation_1|].
  destruct (le_lt_dec (length arr) 1) as [H|H]; simpl.
  - apply Nat.leb_le in H. now rewrite H.
  - apply Nat.leb_gt in H. now rewrite H.
Qed.

Example quicksort_mixed : quicksort [3; 1; 2; 3; 1] = [1; 1; 2; 3; 3].
Proof. reflexivity. Qed.

Example quicksort_empty : quicksort [] = [].
Proof. reflexivity. Qed.

Example quicksort_singleton : quicksort [7] = [7].
Proof. reflexivity. Qed.

Example quicksort_all_equal : quicksort [4; 4; 4; 4] = [4; 4; 4; 4].
Proof. reflexivity. Qed.

Example quicksort_sorted_input : quicksort [1; 2; 3; 4; 5] = [1; 2; 3; 4; 5].
Proof. reflexivity. Qed.

Example quicksort_reverse_input : quicksort [5; 4; 3; 2; 1] = [1; 2; 3; 4; 5].
Proof. reflexivity. Qed.

Lemma partition3_perm (pivot : Q) (arr : list Q) :
  Permutation arr
    (part_left (partition3 pivot arr) ++ part_middle (partition3 pivot arr)
       ++ part_right (partition3 pivot arr)).
Proof.
  rewrite partition3_spec. unfold part_left, part_middle, part_right; simpl.
  induction arr as [|x arr IH]; simpl; [constructor|].
  destruct (Qlt_bool x pivot); simpl.
  - now constructor.
  - destruct (Qeq_bool x pivot); simpl.
    + rewrite <- Permutation_middle. now constructor.
    + rewrite app_assoc, <- Permutation_middle, <- app_assoc. now constructor.
Qed.

Lemma part_left_lt (pivot : Q) (arr : list Q) :
  Forall (fun x => x < pivot) (part_left (partition3 pivot arr)).
Proof.
  rewrite partition3_spec. unfold part_left; simpl.
  apply Forall_forall. intros x Hx. apply filter_In in Hx.
  now apply Qlt_bool_iff.
Qed.

Lemma part_middle_eq (pivot : Q) (arr : list Q) :
  Forall (fun x => x == pivot) (part_middle (partition3 pivot arr)).
Proof.
  rewrite partition3_spec. unfold part_middle; simpl.
  apply Forall_forall. intros x Hx. apply filter_In in Hx.
  destruct Hx as [_ Hx]. apply andb_true_iff in Hx.
  now apply Qeq_bool_iff.
Qed.

Lemma part_right_gt (pivot : Q) (arr : list Q) :
  Forall (fun x => pivot < x) (part_right (partition3 pivot arr)).
Proof.
  rewrite partition3_spec. unfold part_right; simpl.
  apply Forall_forall. intros x Hx. apply filter_In in Hx.
  destruct Hx as [_ Hx]. apply andb_true_iff in Hx. destruct Hx as [H1 H2].
  apply negb_true_iff in H1, H2. apply Qlt_bool_false_iff in H1.
  apply Qle_lt_or_eq in H1. destruct H1 as [H1|H1]; [exact H1|].
  symmetry in H1. apply Qeq_bool_iff in H1. congruence.
Qed.

Lemma quicksort_perm (arr : list Q) : Permutation arr (quicksort arr).
Proof.
  remember (length arr) as n eqn:Hn. revert arr Hn.
  induction n as [n IH] using lt_wf_ind. intros arr Hn.
  rewrite quicksort_eq. destruct (Nat.leb_spec (length arr) 1) as [H|H].
  - reflexivity.
  - rewrite (partition3_perm (pivot_of arr) arr) at 1.
    apply Permutation_app; [|apply Permutation_app_head].
    + eapply IH; [|reflexivity]. subst n. now apply part_left_smaller.
    + eapply IH; [|reflexivity]. subst n. now apply part_right_smaller.
Qed.

(** Three sorted blocks around a pivot make a sorted list. *)
Lemma StronglySorted_app3 (l m r : list Q) (p : Q) :
  StronglySorted Qle l -> StronglySorted Qle r ->
  Forall (fun x => x < p) l -> Forall (fun x => x == p) m ->
  Forall (fun x => p < x) r ->
  StronglySorted Qle (l ++ m ++ r).
Proof.
  intros Hl Hr Fl Fm Fr.
  assert (Hmr : StronglySorted Qle (m ++ r)).
  { induction Fm as [|x m Hx Fm IHm]; simpl; [exact Hr|].
    constructor; [exact IHm|].
    apply Forall_app. split.
    - eapply Forall_impl; [|exact Fm]. intros y Hy; simpl in Hy.
      rewrite Hx, Hy. apply Qle_refl.
    - eapply Forall_impl; [|exact Fr]. intros y Hy; simpl in Hy.
      rewrite Hx. now apply Qlt_le_weak. }
  assert (Fmr : Forall (fun x => p <= x) (m ++ r)).
  { apply Forall_app. split.
    - eapply Forall_impl; [|exact Fm]. intros y Hy; simpl in Hy.
      rewrite Hy. apply Qle_refl.
    - eapply Forall_impl; [|exact Fr]. intros y Hy. now apply Qlt_le_weak. }
  clear Fm Fr Hr.
  induction Hl as [|x l Hl IHl Hx]; simpl; [exact Hmr|].
  inversion Fl as [|? ? Hxp Fl']; subst.
  constructor; [now apply IHl|].
  apply Forall_app. split; [exact Hx|].
  eapply Forall_impl; [|exact Fmr]. intros y Hy; simpl in Hy.
  apply Qle_trans with p; [now apply Qlt_le_weak | exact Hy].
Qed.

Lemma quicksort_sorted (arr : list Q) : StronglySorted Qle (quicksort arr).
Proof.
  remember (length arr) as n eqn:Hn. revert arr Hn.
  induction n as [n IH] using lt_wf_ind. intros arr Hn.
  rewrite quicksort_eq. destruct (Nat.leb_spec (length arr) 1) as [H|H].
  - destruct arr as [|a [|b arr]]; simpl in H; try lia; repeat constructor.
  - apply StronglySorted_app3 with (p := pivot_of arr).
    + eapply IH; [|reflexivity]. subst n. now apply part_left_smaller.
    + eapply IH; [|reflexivity]. subst n. now apply part_right_smaller.
    + eapply Permutation_Forall; [apply quicksort_perm | apply part_left_lt].
    + apply part_middle_eq.
    + eapply Permutation_Forall; [apply quicksort_perm | apply part_right_gt].
Qed.

Lemma quicksort_length (arr : list Q) : length (quicksort arr) = length arr.
Proof. symmetry. apply Permutation_length, quicksort_perm. Qed.

(** C1.  For every list of numbers, [quicksort] returns a non-decreasing
    list (each element is at most each later one, in particular each
    adjacent pair is in order) that is a permutation of the input, so that
    its multiset of elements is the input's.  Empty, singleton, all-equal,
    sorted and reverse-sorted inputs are instances. *)
Theorem quicksort_sorted_permutation (arr : list Q) :
  StronglySorted Qle (quicksort arr)
  /\ Sorted Qle (quicksort arr)
  /\ Permutation arr (quicksort arr).
Proof.
  split; [apply quicksort_sorted|].
  split; [apply StronglySorted_Sorted, quicksort_sorted | apply quicksort_perm].
Qed.

(** ** sqrt_newton *)

Lemma pydiv_nonzero (a b : Q) : ~ b == 0 -> pydiv a b = Ok (a / b).
Proof.
  intros H. unfold pydiv. apply Qeq_bool_false_iff in H. now rewrite H.
Qed.

Lemma pydiv_zero (a b : Q) : b == 0 -> pydiv a b = Raise ZeroDivisionError.
Proof.
  intros H. unfold pydiv. apply Qeq_bool_iff in H. now rewrite H.
Qed.

Lemma newton_step_pos (x guess : Q) :
  0 < x -> 0 < guess -> 0 < (guess + x / guess) / 2.
Proof.
  intros Hx Hg.
  assert (Hq : 0 < x / guess).
  { apply Qlt_shift_div_l; [exact Hg|]. now rewrite Qmult_0_l. }
  apply Qlt_shift_div_l; [reflexivity|]. rewrite Qmult_0_l.
  apply Qlt_trans with (0 + x / guess).
  - now rewrite Qplus_0_l.
  - apply Qplus_lt_l. exact Hg.
Qed.

Lemma newton_loop_pos (n : nat) (x guess : Q) :
  0 < x -> 0 < guess ->
  exists r, newton_loop n x guess = Ok r /\ 0 < r.
Proof.
  intros Hx. revert guess. induction n as [|n IH]; intros guess Hg; simpl.
  - now exists guess.
  - rewrite pydiv_nonzero; simpl.
    + apply IH. now apply newton_step_pos.
    + intros E. rewrite E in Hg. now apply Qlt_irrefl in Hg.
Qed.

Lemma sqrt_newton_negative (x : Q) :
  x < 0 -> sqrt_newton x = Raise (ValueError negative_sqrt_msg).
Proof.
  intros H. unfold sqrt_newton. apply Qlt_bool_iff in H. now rewrite H.
Qed.

Lemma sqrt_newton_zero (x : Q) : x == 0 -> sqrt_newton x = Ok 0.
Proof.
  intros H. unfold sqrt_newton.
  assert (H1 : Qlt_bool x 0 = false).
  { apply Qlt_bool_false_iff. rewrite H. apply Qle_refl. }
  apply Qeq_bool_iff in H. now rewrite H1, H.
Qed.

Lemma sqrt_newton_positive (x : Q) :
  0 < x -> exists r, sqrt_newton x = Ok r /\ 0 < r.
Proof.
  intros H. unfold sqrt_newton.
  assert (H1 : Qlt_bool x 0 = false).
  { apply Qlt_bool_false_iff. now apply Qlt_le_weak. }
  assert (H2 : Qeq_bool x 0 = false).
  { apply Qeq_bool_false_iff. intros E. rewrite E in H.
    now apply Qlt_irrefl in H. }
  rewrite H1, H2. now apply newton_loop_pos.
Qed.

Lemma Q_trichotomy (x : Q) : x < 0 \/ x == 0 \/ 0 < x.
Proof.
  destruct (Q_dec x 0) as [[H|H]|H]; auto.
Qed.

(** Without the early return the first division would fail. *)
Lemma newton_loop_at_zero (n : nat) (x : Q) :
  x == 0 -> newton_loop (S n) x x = Raise ZeroDivisionError.
Proof.
  intros H. simpl. now rewrite pydiv_zero.
Qed.

Lemma sqrt_newton_cases (x : Q) :
  (x < 0 /\ sqrt_newton x = Raise (ValueError negative_sqrt_msg))
  \/ (x == 0 /\ sqrt_newton x = Ok 0)
  \/ (0 < x /\ exists r, sqrt_newton x = Ok r /\ 0 < r).
Proof.
  destruct (Q_trichotomy x) as [H|[H|H]].
  - left. split; [exact H | now apply sqrt_newton_negative].
  - right; left. split; [exact H | now apply sqrt_newton_zero].
  - right; right. split; [exact H | now apply sqrt_newton_positive].
Qed.

Lemma Qlt_not_eq0 (x : Q) : x < 0 -> ~ x == 0.
Proof. intros H E. rewrite E in H. now apply Qlt_irrefl in H. Qed.

Lemma Qgt_not_eq0 (x : Q) : 0 < x -> ~ x == 0.
Proof. intros H E. rewrite E in H. now apply Qlt_irrefl in H. Qed.

Lemma Qgt_not_lt0 (x : Q) : 0 < x -> ~ x < 0.
Proof. intros H L. apply (Qlt_irrefl x). now apply Qlt_trans with 0. Qed.

(** C6.  [sqrt_newton] fails exactly when its argument is strictly negative,
    and then with the [ValueError] of the negative-argument check; it
    returns 0 exactly when the argument equals 0, and then the literal 0 of
    the early return. *)
Theorem sqrt_newton_domain (x : Q) :
  ((exists e, sqrt_newton x = Raise e) <-> x < 0)
  /\ (sqrt_newton x = Raise (ValueError negative_sqrt_msg) <-> x < 0)
  /\ ((exists r, sqrt_newton x = Ok r /\ r == 0) <-> x == 0)
  /\ (sqrt_newton x = Ok 0 <-> x == 0).
Proof.
  destruct (sqrt_newton_cases x) as [[H E]|[[H E]|[H [r [E Hr]]]]].
  - pose proof (Qlt_not_eq0 H) as N. rewrite E.
    split; [|split; [|split]]; split; intros G; try exact H; try reflexivity;
      try contradiction.
    + now eexists.
    + destruct G as [r [G _]]. discriminate.
    + discriminate.
  - assert (N : ~ x < 0) by (intros L; now apply (Qlt_not_eq0 L)).
    rewrite E.
    split; [|split; [|split]]; split; intros G; try exact H; try reflexivity;
      try contradiction.
    + destruct G as [e G]. discriminate.
    + discriminate.
    + exists 0. split; reflexivity.
  - pose proof (Qgt_not_eq0 H) as N0. pose proof (Qgt_not_lt0 H) as N.
    rewrite E.
    split; [|split; [|split]]; split; intros G; try contradiction.
    + destruct G as [e G]. discriminate.
    + discriminate.
    + destruct G as [r' [G Z]]. injection G as <-.
      now apply Qgt_not_eq0 in Hr.
    + injection G as ->. now apply Qlt_irrefl in Hr.
Qed.

Lemma sqrt_newton_nonneg (x : Q) :
  0 <= x -> exists r, sqrt_newton x = Ok r /\ 0 <= r.
Proof.
  intros Hx. apply Qle_lt_or_eq in Hx. destruct Hx as [Hx|Hx].
  - destruct (sqrt_newton_positive Hx) as [r [E Hr]].
    exists r. split; [exact E | now apply Qlt_le_weak].
  - exists 0. split; [apply sqrt_newton_zero; now symmetry | apply Qle_refl].
Qed.

(** C10.  For [x >= 0]: when [x > 0] the guess after each of the first 20
    refinements exists (no division failed) and is strictly positive; and
    [sqrt_newton x] returns a non-negative number, in particular it does not
    raise [ZeroDivisionError]. *)
Theorem sqrt_newton_no_zero_division (x : Q) :
  0 <= x ->
  (forall k, 0 < x -> (k <= 20)%nat ->
      exists guess, newton_loop k x x = Ok guess /\ 0 < guess)
  /\ (exists r, sqrt_newton x = Ok r /\ 0 <= r)
  /\ sqrt_newton x <> Raise ZeroDivisionError.
Proof.
  intros Hx. split; [|split].
  - intros k Hpos _. now apply newton_loop_pos.
  - now apply sqrt_newton_nonneg.
  - destruct (sqrt_newton_nonneg Hx) as [r [E _]]. congruence.
Qed.

Lemma sqrt_newton_no_zero_division_witness :
  0 <= 2 /\ sqrt_newton 2 <> Raise ZeroDivisionError.
Proof.
  split; [discriminate | apply (@sqrt_newton_no_zero_division 2); discriminate].
Defined.

(** ** Variance *)

Lemma variance_loop_sum (data : list Q) (m acc : Q) :
  fold_left (fun s num => let diff := num - m in s + diff * diff) data acc
  == acc + sum_squared_deviations data m.
Proof.
  revert acc. induction data as [|x data IH]; intros acc; simpl.
  - unfold sum_squared_deviations; simpl. ring.
  - rewrite IH. unfold sum_squared_deviations; simpl. ring.
Qed.

Lemma mean_loop_sum (data : list Q) (total : Q) (cnt : nat) :
  let r := fold_left (fun '(total, count) num => (total + num, S count))
             data (total, cnt) in
  fst r == total + Qsum data /\ snd r = (cnt + length data)%nat.
Proof.
  revert total cnt. induction data as [|x data IH]; intros total cnt; simpl.
  - split; [ring | lia].
  - destruct (IH (total + x) (S cnt)) as [H1 H2]. simpl in H1, H2.
    split; [rewrite H1; ring | rewrite H2; lia].
Qed.

Lemma calculate_mean_arithmetic (data : list Q) :
  data <> [] -> calculate_mean data == arithmetic_mean data.
Proof.
  intros Hne. unfold calculate_mean, arithmetic_mean.
  pose proof (mean_loop_sum data 0 0) as H. simpl in H.
  destruct (fold_left _ data (0, 0%nat)) as [total cnt]. simpl in H.
  destruct H as [H1 H2]. subst cnt.
  destruct data as [|x data]; [congruence|].
  replace (0 <? length (x :: data))%nat with true by reflexivity.
  rewrite H1. now rewrite Qplus_0_l.
Qed.

Lemma sum_squared_deviations_compat (data : list Q) (m m' : Q) :
  m == m' -> sum_squared_deviations data m == sum_squared_deviations data m'.
Proof.
  intros E. unfold sum_squared_deviations.
  induction data as [|x data IH]; simpl; [reflexivity|].
  rewrite IH, E. reflexivity.
Qed.

Lemma calculate_variance_small (data : list Q) (m : Q) :
  (length data <= 1)%nat -> calculate_variance data m = 0.
Proof.
  intros H. unfold calculate_variance. apply Nat.leb_le in H. now rewrite H.
Qed.

Lemma calculate_variance_large (data : list Q) (m : Q) :
  (2 <= length data)%nat ->
  calculate_variance data m
  == sum_squared_deviations data m / inject_Z (Z.of_nat (length data) - 1).
Proof.
  intros H. unfold calculate_variance.
  assert (G : (length data <=? 1)%nat = false) by (apply Nat.leb_gt; lia).
  rewrite G, variance_loop_sum, Qplus_0_l. reflexivity.
Qed.

(** C7.  With at most one element [calculate_variance] returns 0; with at
    least two it returns the sum of squared deviations from the mean it is
    given divided by [n - 1], which for the mean of the data is the sample
    variance. *)
Theorem calculate_variance_sample (data : list Q) (mean_value : Q) :
  ((length data <= 1)%nat -> calculate_variance data mean_value = 0)
  /\ ((2 <= length data)%nat ->
      calculate_variance data mean_value
      == sum_squared_deviations data mean_value
         / inject_Z (Z.of_nat (length data) - 1)
      /\ calculate_variance data (calculate_mean data) == sample_variance data).
Proof.
  split; [apply calculate_variance_small|].
  intros H. split; [now apply calculate_variance_large|].
  rewrite calculate_variance_large by exact H. unfold sample_variance.
  rewrite (sum_squared_deviations_compat data (m := calculate_mean data)
             (m' := arithmetic_mean data)); [reflexivity|].
  apply calculate_mean_arithmetic. destruct data; simpl in H; [lia|congruence].
Qed.

Example variance_of_eight :
  calculate_variance [2; 4; 4; 4; 5; 5; 7; 9]
    (calculate_mean [2; 4; 4; 4; 5; 5; 7; 9]) == 32 # 7.
Proof. reflexivity. Qed.

Example variance_of_one : calculate_variance [5] (calculate_mean [5]) = 0.
Proof. reflexivity. Qed.

(** ** Empty and non-empty datasets *)

Lemma getitem_in_range (l : list Q) (i : Z) :
  (0 <= i < Z.of_nat (length l))%Z -> getitem l i = Ok (nth (Z.to_nat i) l 0).
Proof.
  intros H. unfold getitem.
  replace (i <? 0)%Z with false by (symmetry; apply Z.ltb_ge; lia).
  replace (0 <=? i)%Z with true by (symmetry; apply Z.leb_le; lia).
  replace (i <? Z.of_nat (length l))%Z with true
    by (symmetry; apply Z.ltb_lt; lia).
  reflexivity.
Qed.

Lemma calculate_median_nonempty (data : list Q) :
  data <> [] -> exists m, calculate_median data = Ok m.
Proof.
  intros Hne. unfold calculate_median.
  assert (Hn : (0 < Z.of_nat (length (quicksort data)))%Z).
  { rewrite quicksort_length. destruct data; [congruence | simpl; lia]. }
  set (sorted_data := quicksort data) in *.
  set (n := Z.of_nat (length sorted_data)) in *.
  pose proof (Z.div_mod n 2 ltac:(lia)) as Hdm.
  pose proof (Z.mod_pos_bound n 2 ltac:(lia)) as Hm.
  destruct (Z.eqb_spec (n mod 2) 1) as [E|E].
  - rewrite getitem_in_range by (fold n; lia). now eexists.
  - rewrite !getitem_in_range by (fold n; lia). simpl. now eexists.
Qed.

Lemma Qsum_squares_nonneg (data : list Q) (m : Q) :
  0 <= sum_squared_deviations data m.
Proof.
  unfold sum_squared_deviations.
  induction data as [|x data IH]; simpl; [apply Qle_refl|].
  replace 0 with (0 + 0) by reflexivity.
  apply Qplus_le_compat; [|exact IH].
  destruct (Qlt_le_dec (x - m) 0) as [H|H].
  - setoid_replace ((x - m) * (x - m)) with ((- (x - m)) * (- (x - m))) by ring.
    apply Qmult_le_0_compat; apply (Qopp_le_compat (x - m) 0);
      now apply Qlt_le_weak.
  - now apply Qmult_le_0_compat.
Qed.

Lemma calculate_variance_nonneg (data : list Q) (m : Q) :
  0 <= calculate_variance data m.
Proof.
  destruct (le_lt_dec (length data) 1) as [H|H].
  - rewrite calculate_variance_small by exact H. apply Qle_refl.
  - rewrite calculate_variance_large by exact H.
    apply Qle_shift_div_l.
    + change 0 with (inject_Z 0). rewrite <- Zlt_Qlt. lia.
    + rewrite Qmult_0_l. apply Qsum_squares_nonneg.
Qed.

(** On a non-empty dataset every step of [compute_statistics] succeeds. *)
Lemma compute_statistics_nonempty (data : list Q) :
  data <> [] -> exists s, compute_statistics data = Ok s.
Proof.
  intros Hne. unfold compute_statistics.
  destruct (calculate_median_nonempty Hne) as [m ->]. simpl.
  destruct (@sqrt_newton_nonneg
              (calculate_variance data (calculate_mean data))
              (calculate_variance_nonneg _ _)) as [r [-> _]].
  simpl. now eexists.
Qed.

(** C4, as stated, fails: on the empty dataset [compute_statistics] does
    fail, but with the [IndexError] of the list indexing in
    [calculate_median]; the code has no exception for empty datasets. *)
Lemma compute_statistics_empty :
  getitem (quicksort []) (-1) = Raise IndexError
  /\ calculate_median [] = Raise IndexError
  /\ compute_statistics [] = Raise IndexError.
Proof. repeat split. Qed.

Example mean_of_three : calculate_mean [1; 2; 3] == 2.
Proof. reflexivity. Qed.

Example median_of_four : calculate_median [1; 2; 3; 4] = Ok (5 # 2).
Proof. reflexivity. Qed.

(** C4, amended.  The check for an empty dataset is made by the caller:
    [main] exits with status 1 and a message, without computing statistics,
    exactly when the dataset is empty, and otherwise obtains the statistics.
    On the empty dataset [calculate_mean] and [calculate_variance] return 0
    and [calculate_mode] returns the no-unique-mode result. *)
Theorem empty_dataset_checked_by_main (data : list Q) :
  (main_after_read data = Exit 1 no_data_msg <-> data = [])
  /\ (data <> [] <-> exists s, main_after_read data = Computed s)
  /\ calculate_mean [] = 0
  /\ (forall m, calculate_variance [] m = 0)
  /\ calculate_mode [] = NoUniqueMode.
Proof.
  split; [|split; [|repeat split]].
  - destruct data as [|x data]; [split; reflexivity|].
    split; [|discriminate]. unfold main_after_read.
    destruct (compute_statistics (x :: data)); discriminate.
  - split.
    + intros Hne. destruct (compute_statistics_nonempty Hne) as [s E].
      exists s. destruct data; [congruence|].
      unfold main_after_read. now rewrite E.
    + intros [s E] ->. discriminate.
Qed.

(** ** Mode *)

Lemma Qeq_bool_sym (x y : Q) : Qeq_bool x y = Qeq_bool y x.
Proof.
  destruct (Qeq_bool y x) eqn:E.
  - apply Qeq_bool_iff. symmetry. now apply Qeq_bool_iff.
  - apply Qeq_bool_false_iff. intros H. apply Qeq_bool_false_iff in E.
    apply E. now symmetry.
Qed.

Lemma Qeq_bool_compat_r (x y z : Q) : y == z -> Qeq_bool x y = Qeq_bool x z.
Proof.
  intros H. destruct (Qeq_bool x z) eqn:E.
  - apply Qeq_bool_iff. apply Qeq_bool_iff in E. now rewrite H.
  - apply Qeq_bool_false_iff. apply Qeq_bool_false_iff in E. now rewrite H.
Qed.

Lemma occurrences_compat (x y : Q) (data : list Q) :
  x == y -> occurrences x data = occurrences y data.
Proof.
  intros H. unfold occurrences. f_equal. apply filter_ext.
  intros a. now apply Qeq_bool_compat_r.
Qed.

Lemma occurrences_snoc (k x : Q) (l : list Q) :
  occurrences k (l ++ [x])
  = (occurrences k l + if Qeq_bool x k then 1 else 0)%nat.
Proof.
  unfold occurrences. rewrite filter_app, length_app. simpl.
  now destruct (Qeq_bool x k).
Qed.

Lemma occurrences_pos (x : Q) (data : list Q) :
  In x data -> (0 < occurrences x data)%nat.
Proof.
  intros H. unfold occurrences.
  assert (G : In x (filter (fun y => Qeq_bool y x) data)).
  { apply filter_In. split; [exact H | apply Qeq_bool_refl']. }
  destruct (filter _ data); [contradiction | simpl; lia].
Qed.

Lemma occurrences_zero (x : Q) (data : list Q) :
  existsb (fun y => Qeq_bool y x) data = false -> occurrences x data = O.
Proof.
  intros H. unfold occurrences.
  induction data as [|a data IH]; simpl in *; [reflexivity|].
  apply orb_false_iff in H. destruct H as [H1 H2]. rewrite H1. now apply IH.
Qed.

Lemma first_occurrences_In (k : Q) (data : list Q) :
  In k (first_occurrences data) -> In k data.
Proof.
  revert k. induction data as [|x data IH]; simpl; intros k; [tauto|].
  intros [H|H]; [now left|]. right. apply IH.
  apply filter_In in H. tauto.
Qed.

Lemma first_occurrences_InA (y : Q) (data : list Q) :
  In y data -> InA Qeq y (first_occurrences data).
Proof.
  induction data as [|x data IH]; simpl; [tauto|].
  intros [->|H]; [left; reflexivity|].
  destruct (Qeq_bool y x) eqn:E.
  - left. now apply Qeq_bool_iff.
  - right. specialize (IH H). apply InA_alt in IH. destruct IH as [k [E1 Hk]].
    apply InA_alt. exists k. split; [exact E1|].
    apply filter_In. split; [exact Hk|].
    apply negb_true_iff, Qeq_bool_false_iff. intros G.
    apply Qeq_bool_false_iff in E. apply E. now rewrite E1.
Qed.

Lemma NoDupA_filter (f : Q -> bool) (l : list Q) :
  NoDupA Qeq l -> NoDupA Qeq (filter f l).
Proof.
  induction 1 as [|x l Hx Hl IH]; simpl; [constructor|].
  destruct (f x); [|exact IH]. constructor; [|exact IH].
  intros H. apply Hx. apply InA_alt in H. destruct H as [k [E Hk]].
  apply InA_alt. exists k. split; [exact E|]. apply filter_In in Hk. tauto.
Qed.

Lemma first_occurrences_NoDupA (data : list Q) :
  NoDupA Qeq (first_occurrences data).
Proof.
  induction data as [|x data IH]; simpl; constructor.
  - intros H. apply InA_alt in H. destruct H as [k [E Hk]].
    apply filter_In in Hk. destruct Hk as [_ Hk].
    apply negb_true_iff, Qeq_bool_false_iff in Hk. apply Hk. now symmetry.
  - now apply NoDupA_filter.
Qed.

Lemma existsb_Qeq_InA (x : Q) (l : list Q) :
  existsb (fun y => Qeq_bool y x) l = true <-> InA Qeq x l.
Proof.
  rewrite existsb_exists, InA_alt. split; intros [k [H1 H2]]; exists k.
  - split; [|exact H1]. symmetry. now apply Qeq_bool_iff.
  - split; [exact H2|]. apply Qeq_bool_iff. now symmetry.
Qed.

Lemma first_occurrences_snoc (l : list Q) (x : Q) :
  first_occurrences (l ++ [x])
  = if existsb (fun y => Qeq_bool y x) l then first_occurrences l
    else first_occurrences l ++ [x].
Proof.
  induction l as [|a l IH]; simpl; [reflexivity|].
  rewrite IH. destruct (existsb (fun y => Qeq_bool y x) l) eqn:E.
  - now rewrite orb_true_r.
  - rewrite orb_false_r, filter_app. simpl. rewrite (Qeq_bool_sym x a).
    destruct (Qeq_bool a x); simpl; [now rewrite app_nil_r | reflexivity].
Qed.

Lemma existsb_first_occurrences (x : Q) (l : list Q) :
  existsb (fun y => Qeq_bool y x) (first_occurrences l)
  = existsb (fun y => Qeq_bool y x) l.
Proof.
  apply eq_true_iff_eq. rewrite !existsb_Qeq_InA. split.
  - intros H. apply InA_alt in H. destruct H as [k [E Hk]].
    apply InA_alt. exists k. split; [exact E | now apply first_occurrences_In].
  - intros H. apply InA_alt in H. destruct H as [k [E Hk]].
    rewrite E. now apply first_occurrences_InA.
Qed.

Lemma map_bump_id (f : Q -> nat) (x : Q) (ks : list Q) :
  ~ InA Qeq x ks ->
  map (fun k => (k, if Qeq_bool k x then (f k + 1)%nat else f k)) ks
  = map (fun k => (k, f k)) ks.
Proof.
  intros H. apply map_ext_in. intros k Hk.
  destruct (Qeq_bool k x) eqn:E; [|reflexivity].
  exfalso. apply H. apply InA_alt. exists k. split; [|exact Hk].
  symmetry. now apply Qeq_bool_iff.
Qed.

(** One update of the frequency table, on a table given by its keys. *)
Lemma frequency_step_keys (f : Q -> nat) (x : Q) (ks : list Q) :
  NoDupA Qeq ks ->
  frequency_step (map (fun k => (k, f k)) ks) x
  = if existsb (fun k => Qeq_bool k x) ks
    then map (fun k => (k, if Qeq_bool k x then (f k + 1)%nat else f k)) ks
    else map (fun k => (k, f k)) ks ++ [(x, 1%nat)].
Proof.
  unfold frequency_step. induction 1 as [|k ks Hk Hks IH]; simpl.
  - reflexivity.
  - destruct (Qeq_bool k x) eqn:E; simpl.
    + f_equal. symmetry. apply map_bump_id. intros G. apply Hk.
      apply Qeq_bool_iff in E. now rewrite E.
    + rewrite IH. now destruct (existsb (fun k0 => Qeq_bool k0 x) ks).
Qed.

(** The frequency table: the distinct values in order of first occurrence,
    each with its number of occurrences. *)
Lemma build_frequency_spec (data : list Q) :
  build_frequency data
  = map (fun k => (k, occurrences k data)) (first_occurrences data).
Proof.
  unfold build_frequency.
  induction data as [|x l IH] using rev_ind; [reflexivity|].
  rewrite fold_left_app. simpl. rewrite IH.
  rewrite frequency_step_keys by apply first_occurrences_NoDupA.
  rewrite first_occurrences_snoc, existsb_first_occurrences.
  destruct (existsb (fun y => Qeq_bool y x) l) eqn:E.
  - apply map_ext. intros k. rewrite occurrences_snoc.
    rewrite (Qeq_bool_sym x k). destruct (Qeq_bool k x); f_equal; lia.
  - rewrite map_app. simpl. f_equal.
    + apply map_ext_in. intros k Hk. rewrite occurrences_snoc.
      destruct (Qeq_bool x k) eqn:G; [|f_equal; lia].
      exfalso. apply first_occurrences_In in Hk.
      assert (T : existsb (fun y => Qeq_bool y x) l = true).
      { apply existsb_exists. exists k. split; [exact Hk|].
        now rewrite Qeq_bool_sym. }
      congruence.
    + rewrite occurrences_snoc, Qeq_bool_refl', (occurrences_zero _ _ E).
      reflexivity.
Qed.

Lemma max_default0_list_max (values : list nat) :
  max_default0 values = list_max values.
Proof.
  unfold max_default0, list_max.
  rewrite <- fold_left_rev_right.
  assert (G : forall l a, fold_right (fun y x => Nat.max x y) a l
                          = Nat.max a (fold_right Nat.max O l)).
  { induction l as [|b l IHl]; intros a; simpl; [lia|]. rewrite IHl. lia. }
  rewrite G. simpl.
  assert (R : forall l : list nat, fold_right Nat.max O (rev l) = fold_right Nat.max O l).
  { induction l as [|b l IHl]; simpl; [reflexivity|].
    rewrite fold_right_app. simpl. rewrite <- IHl.
    generalize (rev l). induction l0 as [|c l0 IH0]; simpl; lia. }
  apply R.
Qed.

Lemma list_max_first_occurrences (data : list Q) :
  list_max (map (fun k => occurrences k data) (first_occurrences data))
  = max_occurrences data.
Proof.
  unfold max_occurrences. apply Nat.le_antisymm.
  - apply list_max_le, Forall_forall. intros n Hn. apply in_map_iff in Hn.
    destruct Hn as [k [<- Hk]]. apply first_occurrences_In in Hk.
    assert (F : Forall (fun n => (n <= list_max (map (fun x => occurrences x data) data))%nat)
                  (map (fun x => occurrences x data) data))
      by now apply list_max_le.
    rewrite Forall_forall in F. apply F. apply in_map_iff. now exists k.
  - apply list_max_le, Forall_forall. intros n Hn. apply in_map_iff in Hn.
    destruct Hn as [y [<- Hy]]. apply first_occurrences_InA in Hy.
    apply InA_alt in Hy. destruct Hy as [k [E Hk]].
    rewrite (occurrences_compat data E).
    assert (F : Forall (fun n => (n <= list_max (map (fun k => occurrences k data) (first_occurrences data)))%nat)
                  (map (fun k => occurrences k data) (first_occurrences data)))
      by now apply list_max_le.
    rewrite Forall_forall in F. apply F. apply in_map_iff. now exists k.
Qed.

(** [calculate_mode] in terms of occurrences. *)
Lemma calculate_mode_spec (data : list Q) :
  calculate_mode data =
    if (length (tied_values data) =? length (first_occurrences data))%nat
    then NoUniqueMode
    else if (length (tied_values data) =? 1)%nat
         then ModeValue (nth 0 (tied_values data) 0)
         else ModeList (tied_values data).
Proof.
  unfold calculate_mode. rewrite build_frequency_spec.
  unfold PyDict.values. rewrite map_map. simpl.
  rewrite max_default0_list_max, list_max_first_occurrences.
  assert (E : map fst
                (filter (fun '(_, freq) => (freq =? max_occurrences data)%nat)
                   (map (fun k => (k, occurrences k data))
                      (first_occurrences data)))
              = tied_values data).
  { unfold tied_values. induction (first_occurrences data) as [|k ks IH];
      simpl; [reflexivity|].
    destruct (occurrences k data =? max_occurrences data)%nat; simpl;
      now rewrite IH. }
  rewrite E, length_map. reflexivity.
Qed.

Lemma filter_all_length (A : Type) (f : A -> bool) (l : list A) :
  length (filter f l) = length l <-> (forall x, In x l -> f x = true).
Proof.
  induction l as [|a l IH]; simpl; [tauto|].
  pose proof (filter_length_le f l) as Hle.
  destruct (f a) eqn:E; simpl.
  - split.
    + intros H x [<-|Hx]; [exact E|]. apply IH; [lia | exact Hx].
    + intros H. f_equal. apply IH. intros x Hx. apply H. now right.
  - split; [lia|]. intros H. specialize (H a (or_introl eq_refl)). congruence.
Qed.

Lemma list_max_In (l : list nat) : l <> [] -> In (list_max l) l.
Proof.
  induction l as [|a l IH]; [congruence|]. intros _. simpl.
  destruct l as [|b l]; [left; simpl; lia|].
  destruct (Nat.max_spec a (list_max (b :: l))) as [[_ E]|[_ E]].
  - right. rewrite E. apply IH. discriminate.
  - left. now rewrite E.
Qed.

Lemma occurrences_le_max (x : Q) (data : list Q) :
  In x data -> (occurrences x data <= max_occurrences data)%nat.
Proof.
  intros H. unfold max_occurrences.
  assert (F : Forall (fun n => (n <= list_max (map (fun x => occurrences x data) data))%nat)
                (map (fun x => occurrences x data) data))
    by now apply list_max_le.
  rewrite Forall_forall in F. apply F. apply in_map_iff. now exists x.
Qed.

Lemma max_occurrences_attained (data : list Q) :
  data <> [] -> exists x, In x data /\ occurrences x data = max_occurrences data.
Proof.
  intros Hne. unfold max_occurrences.
  assert (H : In (list_max (map (fun x => occurrences x data) data))
                (map (fun x => occurrences x data) data)).
  { apply list_max_In. destruct data; [congruence | discriminate]. }
  apply in_map_iff in H. destruct H as [x [E Hx]]. now exists x.
Qed.

Lemma tied_values_In (k : Q) (data : list Q) :
  In k (tied_values data)
  <-> In k (first_occurrences data)
      /\ occurrences k data = max_occurrences data.
Proof.
  unfold tied_values. rewrite filter_In, Nat.eqb_eq. reflexivity.
Qed.

(** The table has as many tied values as keys exactly when all values
    occur equally often. *)
Lemma tied_all_iff (data : list Q) :
  length (tied_values data) = length (first_occurrences data)
  <-> all_same_frequency data.
Proof.
  unfold tied_values. rewrite filter_all_length. split.
  - intros H x y Hx Hy.
    apply first_occurrences_InA, InA_alt in Hx, Hy.
    destruct Hx as [kx [Ex Hkx]]. destruct Hy as [ky [Ey Hky]].
    rewrite (occurrences_compat data Ex), (occurrences_compat data Ey).
    apply H in Hkx, Hky. apply Nat.eqb_eq in Hkx, Hky. congruence.
  - intros H k Hk. apply Nat.eqb_eq. apply first_occurrences_In in Hk.
    destruct (max_occurrences_attained (data := data)) as [x [Hx <-]].
    + intros ->. contradiction.
    + now apply H.
Qed.

Lemma filter_none (A : Type) (f : A -> bool) (l : list A) :
  (forall x, In x l -> f x = false) -> filter f l = [].
Proof.
  intros H. rewrite (filter_ext_in f (fun _ => false) l H).
  apply filter_false.
Qed.

Lemma filter_singleton (f : Q -> bool) (k0 : Q) (ks : list Q) :
  NoDupA Qeq ks -> In k0 ks ->
  (forall k, In k ks -> (f k = true <-> k == k0)) ->
  filter f ks = [k0].
Proof.
  induction 1 as [|a ks Ha Hks IH]; simpl; [tauto|].
  intros Hin Hf.
  assert (Htail : forall k, In k ks -> ~ k == a).
  { intros k Hk E. apply Ha. apply InA_alt. exists k.
    split; [now symmetry | exact Hk]. }
  destruct Hin as [->|Hin].
  - replace (f k0) with true
      by (symmetry; apply Hf; [now left | reflexivity]).
    f_equal. apply filter_none. intros k Hk.
    apply not_true_iff_false. intros T. apply Hf in T; [|now right].
    now apply (Htail k).
  - replace (f a) with false.
    + apply IH; [exact Hin|]. intros k Hk. apply Hf. now right.
    + symmetry. apply not_true_iff_false. intros T.
      apply Hf in T; [|now left]. apply (Htail k0 Hin). now symmetry.
Qed.

Lemma two_distinct_length (A : Type) (a b : A) (l : list A) :
  In a l -> In b l -> a <> b -> (2 <= length l)%nat.
Proof.
  destruct l as [|x [|y l]]; simpl; try tauto; [|lia].
  intros [<-|[]] [<-|[]]. congruence.
Qed.

Lemma unique_most_frequent_max (m : Q) (data : list Q) :
  unique_most_frequent m data -> occurrences m data = max_occurrences data.
Proof.
  intros [Hm Hu]. apply Nat.le_antisymm; [now apply occurrences_le_max|].
  unfold max_occurrences. apply list_max_le, Forall_forall.
  intros n Hn. apply in_map_iff in Hn. destruct Hn as [y [<- Hy]].
  destruct (Hu y Hy) as [E|L]; [rewrite (occurrences_compat data E)|]; lia.
Qed.

Lemma calculate_mode_unique (m : Q) (data : list Q) :
  unique_most_frequent m data ->
  (exists y, In y data /\ ~ y == m) ->
  exists m', m' == m /\ In m' data /\ calculate_mode data = ModeValue m'.
Proof.
  intros Hu [y [Hy Hne]].
  pose proof (unique_most_frequent_max Hu) as Hmax.
  destruct Hu as [Hm Hu].
  pose proof (first_occurrences_InA _ _ Hm) as Im. apply InA_alt in Im.
  destruct Im as [m' [Em Hm']].
  pose proof (first_occurrences_InA _ _ Hy) as Iy. apply InA_alt in Iy.
  destruct Iy as [y' [Ey Hy']].
  exists m'. split; [now symmetry|].
  split; [now apply first_occurrences_In|].
  assert (T : tied_values data = [m']).
  { unfold tied_values. apply filter_singleton.
    - apply first_occurrences_NoDupA.
    - exact Hm'.
    - intros k Hk. rewrite Nat.eqb_eq, <- Hmax. split.
      + intros E. destruct (Hu k (first_occurrences_In _ _ Hk)) as [G|G].
        * now rewrite G.
        * lia.
      + intros E. apply occurrences_compat. now rewrite E. }
  assert (L : (2 <= length (first_occurrences data))%nat).
  { apply two_distinct_length with (a := m') (b := y'); try assumption.
    intros ->. apply Hne. now rewrite Ey, Em. }
  rewrite calculate_mode_spec, T.
  destruct (Nat.eqb_spec (length [m']) (length (first_occurrences data)))
    as [E|E]; [simpl in E; lia | reflexivity].
Qed.

Lemma calculate_mode_none_iff (data : list Q) :
  calculate_mode data = NoUniqueMode <-> all_same_frequency data.
Proof.
  rewrite <- tied_all_iff, calculate_mode_spec.
  destruct (Nat.eqb_spec (length (tied_values data))
              (length (first_occurrences data))) as [E|E].
  - tauto.
  - split; [|contradiction].
    destruct (length (tied_values data) =? 1)%nat; discriminate.
Qed.

Lemma tied_single_unique (k : Q) (data : list Q) :
  tied_values data = [k] -> unique_most_frequent k data.
Proof.
  intros T.
  assert (Hk : In k (tied_values data)) by (rewrite T; now left).
  apply tied_values_In in Hk. destruct Hk as [Hk Hmax].
  split; [now apply first_occurrences_In|].
  intros y Hy. pose proof (occurrences_le_max _ _ Hy) as Hle.
  apply first_occurrences_InA, InA_alt in Hy. destruct Hy as [y' [Ey Hy']].
  destruct (Nat.eq_dec (occurrences y' data) (max_occurrences data)) as [E|E].
  - left. assert (G : In y' (tied_values data)) by now apply tied_values_In.
    rewrite T in G. destruct G as [<-|[]]. exact Ey.
  - right. rewrite (occurrences_compat data Ey) in *. lia.
Qed.

Lemma calculate_mode_ties (data : list Q) :
  ~ all_same_frequency data ->
  ~ (exists m, unique_most_frequent m data) ->
  calculate_mode data = ModeList (tied_values data).
Proof.
  intros Hs Hu. rewrite calculate_mode_spec.
  destruct (Nat.eqb_spec (length (tied_values data))
              (length (first_occurrences data))) as [E|E].
  - exfalso. apply Hs. now apply tied_all_iff.
  - destruct (Nat.eqb_spec (length (tied_values data)) 1) as [E1|E1];
      [|reflexivity].
    exfalso. apply Hu.
    destruct (tied_values data) as [|k [|k' l]] eqn:T; try discriminate.
    exists k. now apply tied_single_unique.
Qed.

Lemma tied_values_most_frequent (data : list Q) (x : Q) :
  InA Qeq x (tied_values data)
  <-> InA Qeq x data
      /\ forall y, In y data -> (occurrences y data <= occurrences x data)%nat.
Proof.
  split.
  - intros H. apply InA_alt in H. destruct H as [k [E Hk]].
    apply tied_values_In in Hk. destruct Hk as [Hk Hmax]. split.
    + apply InA_alt. exists k. split; [exact E|].
      now apply first_occurrences_In.
    + intros y Hy. rewrite (occurrences_compat data E), Hmax.
      now apply occurrences_le_max.
  - intros [H Hle]. apply InA_alt in H. destruct H as [x' [E Hx']].
    apply first_occurrences_InA, InA_alt in Hx'. destruct Hx' as [k [E' Hk]].
    apply InA_alt. exists k. split; [now rewrite E, E'|].
    apply tied_values_In. split; [exact Hk|].
    apply Nat.le_antisymm.
    + apply occurrences_le_max. now apply first_occurrences_In.
    + destruct (max_occurrences_attained (data := data)) as [z [Hz <-]].
      * intros ->. contradiction.
      * rewrite <- (occurrences_compat data E'), <- (occurrences_compat data E).
        now apply Hle.
Qed.

Lemma build_frequency_keys (data : list Q) :
  PyDict.keys (build_frequency data) = first_occurrences data.
Proof.
  rewrite build_frequency_spec. unfold PyDict.keys. rewrite map_map. simpl.
  apply map_id.
Qed.

Example mode_of_ties : calculate_mode [1; 1; 2; 2; 3] = ModeList [1; 2].
Proof. reflexivity. Qed.

Example mode_of_one_winner : calculate_mode [1; 2; 2; 3] = ModeValue 2.
Proof. reflexivity. Qed.

Example mode_of_all_distinct : calculate_mode [1; 2; 3] = NoUniqueMode.
Proof. reflexivity. Qed.

(** C5, as stated, fails on a dataset with a single distinct value: 5 is
    the one value of maximal frequency in [[5]], and the result is the
    no-unique-mode answer, not 5. *)
Lemma calculate_mode_single_value :
  [5] <> [] /\ unique_most_frequent 5 [5] /\ calculate_mode [5] = NoUniqueMode.
Proof.
  split; [discriminate|]. split; [|reflexivity].
  split; [now left|]. intros y [<-|[]]. left. reflexivity.
Qed.

(** C5, amended.  On a non-empty dataset [calculate_mode] returns the
    no-unique-mode answer exactly when all values occur equally often
    (which includes a single distinct value); when one value occurs more
    often than every other and there is another value, it returns that
    value; in the remaining case it returns the list of the values of
    maximal frequency. *)
Theorem calculate_mode_cases (data : list Q) :
  data <> [] ->
  (calculate_mode data = NoUniqueMode <-> all_same_frequency data)
  /\ (forall m, unique_most_frequent m data ->
        (exists y, In y data /\ ~ y == m) ->
        exists m', m' == m /\ In m' data /\ calculate_mode data = ModeValue m')
  /\ (~ all_same_frequency data ->
      ~ (exists m, unique_most_frequent m data) ->
      calculate_mode data = ModeList (tied_values data))
  /\ (forall x, InA Qeq x (tied_values data)
                <-> InA Qeq x data
                    /\ forall y, In y data ->
                         (occurrences y data <= occurrences x data)%nat).
Proof.
  intros _. split; [apply calculate_mode_none_iff|].
  split; [intros m; apply calculate_mode_unique|].
  split; [apply calculate_mode_ties | apply tied_values_most_frequent].
Qed.

Lemma calculate_mode_cases_witness :
  [1; 1; 2; 2; 3] <> []
  /\ (calculate_mode [1; 1; 2; 2; 3] = NoUniqueMode
      <-> all_same_frequency [1; 1; 2; 2; 3]).
Proof.
  split; [discriminate|].
  apply (@calculate_mode_cases [1; 1; 2; 2; 3]). discriminate.
Defined.

(** C3, as stated, fails: the tied values come out in the order of the
    frequency table, here 2 before 1. *)
Lemma mode_ties_not_ascending :
  calculate_mode [2; 2; 1; 1; 3] = ModeList [2; 1] /\ ~ Sorted Qle [2; 1].
Proof.
  split; [reflexivity|]. intros H.
  inversion H as [|a l _ Hd]; subst. inversion Hd as [|b l' Hle]; subst.
  now apply Hle.
Qed.

(** C3, amended.  When [calculate_mode] returns a list of tied values, the
    list is in the iteration order of the frequency table, whose keys are
    the distinct values in order of first occurrence in the data: it is the
    sub-list of the first occurrences that have maximal frequency. *)
Theorem mode_ties_in_first_occurrence_order (data ms : list Q) :
  calculate_mode data = ModeList ms ->
  PyDict.keys (build_frequency data) = first_occurrences data
  /\ ms = filter (fun k => (occurrences k data =? max_occurrences data)%nat)
            (PyDict.keys (build_frequency data)).
Proof.
  intros H. split; [apply build_frequency_keys|].
  rewrite build_frequency_keys. fold (tied_values data).
  rewrite calculate_mode_spec in H.
  destruct (length (tied_values data) =? length (first_occurrences data))%nat;
    [discriminate|].
  destruct (length (tied_values data) =? 1)%nat; [discriminate|].
  now injection H as <-.
Qed.

Lemma mode_ties_in_first_occurrence_order_witness :
  calculate_mode [2; 2; 1; 1; 3] = ModeList [2; 1]
  /\ [2; 1] = filter (fun k => Nat.eqb (occurrences k [2; 2; 1; 1; 3])
                                 (max_occurrences [2; 2; 1; 1; 3]))
                (PyDict.keys (build_frequency [2; 2; 1; 1; 3])).
Proof.
  split; [reflexivity|].
  apply (@mode_ties_in_first_occurrence_order [2; 2; 1; 1; 3] [2; 1]).
  reflexivity.
Defined.

End StatsProofs.

(** * Properties of convertNumbers.py *)

Module ConvProofs.
Import Conv ConvSpec.
Local Open Scope Z_scope.

Lemma read_digits_none (base : Z) (s : pystr) :
  fold_left (read_digit base) s None = None.
Proof. induction s as [|c s IH]; simpl; [reflexivity | exact IH]. Qed.

(** Digits read after the number [a] shift it left. *)
Lemma read_digits_from (base a v : Z) (s : pystr) :
  digits_value base s = Some v ->
  fold_left (read_digit base) s (Some a)
  = Some (a * base ^ Z.of_nat (length s) + v).
Proof.
  unfold digits_value. revert a v.
  induction s as [|c s IH] using rev_ind; intros a v; simpl.
  - intros [= <-]. f_equal. lia.
  - rewrite !fold_left_app. simpl.
    destruct (fold_left (read_digit base) s (Some 0)) as [w|] eqn:E;
      [|discriminate].
    rewrite (IH a w eq_refl). unfold read_digit.
    destruct (digit_value c) as [d|]; [|discriminate].
    destruct (d <? base); [|discriminate].
    intros [= <-]. f_equal. rewrite length_app. simpl.
    rewrite Nat2Z.inj_add, Z.pow_add_r by lia. simpl (Z.of_nat 1).
    rewrite Z.pow_1_r. ring.
Qed.

Lemma digits_value_app (base v w : Z) (s t : pystr) :
  digits_value base s = Some v -> digits_value base t = Some w ->
  digits_value base (s ++ t) = Some (v * base ^ Z.of_nat (length t) + w).
Proof.
  intros Hs Ht. unfold digits_value. rewrite fold_left_app.
  fold (digits_value base s). rewrite Hs. now apply read_digits_from.
Qed.

Lemma str_digit_value (base d : Z) :
  0 <= d < 2 -> 2 <= base -> digits_value base (str_digit d) = Some d.
Proof.
  intros H Hb. assert (E : d = 0 \/ d = 1) by lia.
  unfold digits_value, read_digit.
  destruct E as [-> | ->]; simpl;
    (destruct (Z.ltb_spec 0 base); destruct (Z.ltb_spec 1 base);
     try lia; reflexivity).
Qed.

Lemma hex_digit_value (d : Z) :
  0 <= d < 16 -> digits_value 16 (hex_digit d) = Some d.
Proof.
  intros H. rewrite <- (Z2Nat.id d) by lia.
  assert (L : (Z.to_nat d < 16)%nat) by lia.
  revert L. generalize (Z.to_nat d). intros n L.
  do 16 (destruct n as [|n]; [reflexivity|]). lia.
Qed.

Lemma hex_digit_length (d : Z) : length (hex_digit d) = 1%nat.
Proof. reflexivity. Qed.

Lemma str_digit_length (d : Z) : length (str_digit d) = 1%nat.
Proof. reflexivity. Qed.

(** ** Negative numbers: fixed width *)

Lemma land_1_mod (x : Z) : Z.land x 1 = x mod 2.
Proof. change 1 with (Z.ones 1). now rewrite Z.land_ones by lia. Qed.

Lemma land_15_mod (x : Z) : Z.land x 15 = x mod 16.
Proof. change 15 with (Z.ones 4). now rewrite Z.land_ones by lia. Qed.

Lemma land_mask_mod (x bits : Z) :
  0 <= bits -> Z.land x (Z.shiftl 1 bits - 1) = x mod 2 ^ bits.
Proof.
  intros H. rewrite <- Z.land_ones by exact H. reflexivity.
Qed.

(** The loop writing the bits of [v] from bit [bits - 1] down. *)
Lemma binary_bits_loop (v bits : Z) (c a : nat) (s : pystr) :
  0 <= v -> Z.of_nat (a + c) = bits ->
  length s = a -> digits_value 2 s = Some (v / 2 ^ (bits - Z.of_nat a)) ->
  let r := fold_left
             (fun binary_str i =>
                binary_str ++ str_digit (Z.land (Z.shiftr v (bits - 1 - i)) 1))
             (map Z.of_nat (seq a c)) s in
  length r = Z.to_nat bits /\ digits_value 2 r = Some v.
Proof.
  intros Hv. revert a s. induction c as [|c IH]; intros a s Hb Hl Hd; simpl.
  - replace (bits - Z.of_nat a) with 0 in Hd by lia.
    rewrite Z.pow_0_r, Z.div_1_r in Hd. split; [lia | exact Hd].
  - apply IH.
    + lia.
    + rewrite length_app, str_digit_length. lia.
    + rewrite land_1_mod, Z.shiftr_div_pow2 by lia.
      set (q := v / 2 ^ (bits - 1 - Z.of_nat a)).
      assert (Hq : 0 <= q) by (apply Z.div_pos; lia).
      rewrite (@digits_value_app 2 (v / 2 ^ (bits - Z.of_nat a)) (q mod 2)
                 s (str_digit (q mod 2)) Hd).
      * rewrite str_digit_length. f_equal.
        replace (bits - Z.of_nat a) with (bits - 1 - Z.of_nat a + 1) by lia.
        rewrite Z.pow_add_r, Z.pow_1_r by lia.
        rewrite <- Z.div_div by lia. fold q.
        replace (bits - Z.of_nat (S a)) with (bits - 1 - Z.of_nat a) by lia.
        fold q. change (2 ^ Z.of_nat 1) with 2.
        pose proof (Z.div_mod q 2 ltac:(lia)). lia.
      * apply str_digit_value; [apply Z.mod_pos_bound|]; lia.
Qed.

Lemma convert_to_binary_negative (n : Z) :
  n < 0 ->
  length (convert_to_binary n) = 10%nat
  /\ digits_value 2 (convert_to_binary n) = Some (n mod 2 ^ 10).
Proof.
  intros H. unfold convert_to_binary.
  replace (n <? 0) with true by (symmetry; now apply Z.ltb_lt).
  cbv zeta. rewrite land_mask_mod by lia.
  pose proof (Z.mod_pos_bound n (2 ^ 10) ltac:(lia)) as Hm.
  apply (@binary_bits_loop (n mod 2 ^ 10) 10 10 0 []); try lia; try reflexivity.
  simpl (10 - Z.of_nat 0). rewrite Z.div_small by lia. reflexivity.
Qed.

(** The loop writing [l] hexadecimal digits of [v], least significant
    first, in front of [s]. *)
Lemma hex_digits_loop (l : list Z) (v w : Z) (s : pystr) :
  0 <= v -> digits_value 16 s = Some w ->
  let r := fold_left
             (fun '(value, hex_str) _ =>
                let digit := Z.land value 15 in
                (value / 16, hex_digit digit ++ hex_str))
             l (v, s) in
  fst r = v / 16 ^ Z.of_nat (length l)
  /\ length (snd r) = (length l + length s)%nat
  /\ digits_value 16 (snd r)
     = Some ((v mod 16 ^ Z.of_nat (length l)) * 16 ^ Z.of_nat (length s) + w).
Proof.
  revert v w s. induction l as [|i l IH]; intros v w s Hv Hd; cbn [fold_left];
    cbv zeta in *.
  - simpl. rewrite Z.div_1_r, Z.mod_1_r. repeat split; try lia.
    exact Hd.
  - rewrite land_15_mod.
    pose proof (Z.mod_pos_bound v 16 ltac:(lia)) as Hm.
    assert (Hd' : digits_value 16 (hex_digit (v mod 16) ++ s)
                  = Some (v mod 16 * 16 ^ Z.of_nat (length s) + w)).
    { apply digits_value_app; [now apply hex_digit_value | exact Hd]. }
    destruct (IH (v / 16) _ _ (Z.div_pos v 16 Hv ltac:(lia)) Hd')
      as [H1 [H2 H3]].
    split; [|split].
    + etransitivity; [exact H1|]. rewrite Z.div_div by lia. f_equal.
      change (length (i :: l)) with (S (length l)).
      rewrite Nat2Z.inj_succ, Z.pow_succ_r by lia. reflexivity.
    + etransitivity; [exact H2|]. simpl. lia.
    + etransitivity; [exact H3|]. f_equal.
      change (length (i :: l)) with (S (length l)).
      change (length (hex_digit (v mod 16) ++ s)) with (S (length s)).
      rewrite !Nat2Z.inj_succ, !Z.pow_succ_r by lia.
      rewrite (Z.rem_mul_r v 16 (16 ^ Z.of_nat (length l))) by lia.
      ring.
Qed.

Lemma convert_to_hexadecimal_negative (n : Z) :
  n < 0 ->
  length (convert_to_hexadecimal n) = 8%nat
  /\ digits_value 16 (convert_to_hexadecimal n) = Some (n mod 2 ^ 32).
Proof.
  intros H. unfold convert_to_hexadecimal.
  replace (n <? 0) with true by (symmetry; now apply Z.ltb_lt).
  cbv zeta. rewrite land_mask_mod by lia.
  pose proof (Z.mod_pos_bound n (2 ^ 32) ltac:(lia)) as Hm.
  destruct (@hex_digits_loop (range 8) (n mod 2 ^ 32) 0 [] ltac:(lia) eq_refl)
    as [_ [H2 H3]].
  split; [exact H2|]. etransitivity; [exact H3|]. f_equal.
  change (16 ^ Z.of_nat (length (range 8))) with (2 ^ 32).
  rewrite Z.mod_mod by lia. simpl. lia.
Qed.

(** ** Non-negative numbers: natural width *)

Lemma binary_loop_eq (num : Z) (binary_str : pystr) :
  binary_loop num binary_str =
    if 0 <? num
    then binary_loop (num / 2) (str_digit (num mod 2) ++ binary_str)
    else binary_str.
Proof.
  etransitivity; [apply binary_loop_equation_1|].
  destruct (Z_gt_dec num 0) as [H|H]; simpl.
  - replace (0 <? num) with true by (symmetry; apply Z.ltb_lt; lia).
    reflexivity.
  - replace (0 <? num) with false by (symmetry; apply Z.ltb_ge; lia).
    reflexivity.
Qed.

Lemma hex_loop_eq (num : Z) (hex_str : pystr) :
  hex_loop num hex_str =
    if 0 <? num
    then hex_loop (num / 16) (hex_digit (num mod 16) ++ hex_str)
    else hex_str.
Proof.
  etransitivity; [apply hex_loop_equation_1|].
  destruct (Z_gt_dec num 0) as [H|H]; simpl.
  - replace (0 <? num) with true by (symmetry; apply Z.ltb_lt; lia).
    reflexivity.
  - replace (0 <? num) with false by (symmetry; apply Z.ltb_ge; lia).
    reflexivity.
Qed.

(** Induction on a non-negative number through its quotient. *)
Lemma quotient_ind (base : Z) (P : Z -> Prop) :
  2 <= base ->
  (forall num, (0 < num -> P (num / base)) -> P num) ->
  forall num, P num.
Proof.
  intros Hb Hstep num.
  remember (Z.to_nat num) as k eqn:Hk. revert num Hk.
  induction k as [k IH] using lt_wf_ind. intros num Hk.
  apply Hstep. intros Hpos. apply (IH (Z.to_nat (num / base))); [|reflexivity].
  subst k. assert (num / base < num) by (apply Z.div_lt; lia).
  assert (0 <= num / base) by (apply Z.div_pos; lia). lia.
Qed.

Lemma binary_loop_value (num : Z) :
  forall (acc : pystr) (a : Z),
    0 <= num -> digits_value 2 acc = Some a ->
    digits_value 2 (binary_loop num acc)
    = Some (num * 2 ^ Z.of_nat (length acc) + a).
Proof.
  pattern num. apply (@quotient_ind 2); [lia|]. clear num. intros num IH.
  intros acc a Hn Ha. rewrite binary_loop_eq.
  destruct (Z.ltb_spec 0 num) as [Hpos|Hz].
  - pose proof (Z.mod_pos_bound num 2 ltac:(lia)) as Hm.
    rewrite (IH Hpos _ (num mod 2 * 2 ^ Z.of_nat (length acc) + a)).
    + f_equal. rewrite length_app, str_digit_length.
      change (Z.of_nat (1 + length acc)) with (Z.of_nat (S (length acc))).
      rewrite Nat2Z.inj_succ, Z.pow_succ_r by lia.
      pose proof (Z.div_mod num 2 ltac:(lia)) as Hdm.
      rewrite Hdm at 3. ring.
    + apply Z.div_pos; lia.
    + apply digits_value_app; [apply str_digit_value; lia | exact Ha].
  - replace num with 0 by lia. rewrite Ha. f_equal; lia.
Qed.

Lemma hex_loop_value (num : Z) :
  forall (acc : pystr) (a : Z),
    0 <= num -> digits_value 16 acc = Some a ->
    digits_value 16 (hex_loop num acc)
    = Some (num * 16 ^ Z.of_nat (length acc) + a).
Proof.
  pattern num. apply (@quotient_ind 16); [lia|]. clear num. intros num IH.
  intros acc a Hn Ha. rewrite hex_loop_eq.
  destruct (Z.ltb_spec 0 num) as [Hpos|Hz].
  - pose proof (Z.mod_pos_bound num 16 ltac:(lia)) as Hm.
    rewrite (IH Hpos _ (num mod 16 * 16 ^ Z.of_nat (length acc) + a)).
    + f_equal. rewrite length_app, hex_digit_length.
      change (Z.of_nat (1 + length acc)) with (Z.of_nat (S (length acc))).
      rewrite Nat2Z.inj_succ, Z.pow_succ_r by lia.
      pose proof (Z.div_mod num 16 ltac:(lia)) as Hdm.
      rewrite Hdm at 3. ring.
    + apply Z.div_pos; lia.
    + apply digits_value_app; [apply hex_digit_value; lia | exact Ha].
  - replace num with 0 by lia. rewrite Ha. f_equal; lia.
Qed.

Lemma hex_digit_nonzero (d : Z) :
  0 < d < 16 -> exists c, hex_digit d = [c] /\ c <> "0"%char.
Proof.
  intros H. rewrite <- (Z2Nat.id d) by lia.
  assert (L : (0 < Z.to_nat d < 16)%nat) by lia.
  revert L. generalize (Z.to_nat d). intros n L.
  destruct n as [|n]; [lia|].
  do 15 (destruct n as [|n]; [eexists; split; [reflexivity | discriminate]|]).
  lia.
Qed.

Lemma binary_loop_leading (num : Z) :
  forall acc : pystr,
    0 < num ->
    exists c rest, binary_loop num acc = c :: rest /\ c <> "0"%char.
Proof.
  pattern num. apply (@quotient_ind 2); [lia|]. clear num. intros num IH.
  intros acc Hpos. rewrite binary_loop_eq.
  replace (0 <? num) with true by (symmetry; now apply Z.ltb_lt).
  destruct (Z.ltb_spec 0 (num / 2)) as [Hq|Hq].
  - now apply IH.
  - assert (Hq0 : num / 2 = 0) by (pose proof (Z.div_pos num 2); lia).
    pose proof (Z.div_mod num 2 ltac:(lia)) as Hdm.
    pose proof (Z.mod_pos_bound num 2 ltac:(lia)) as Hm.
    assert (E : num mod 2 = 1) by lia.
    rewrite Hq0, E, binary_loop_eq. simpl.
    eexists; eexists; split; [reflexivity | discriminate].
Qed.

Lemma hex_loop_leading (num : Z) :
  forall acc : pystr,
    0 < num ->
    exists c rest, hex_loop num acc = c :: rest /\ c <> "0"%char.
Proof.
  pattern num. apply (@quotient_ind 16); [lia|]. clear num. intros num IH.
  intros acc Hpos. rewrite hex_loop_eq.
  replace (0 <? num) with true by (symmetry; now apply Z.ltb_lt).
  destruct (Z.ltb_spec 0 (num / 16)) as [Hq|Hq].
  - now apply IH.
  - assert (Hq0 : num / 16 = 0) by (pose proof (Z.div_pos num 16); lia).
    pose proof (Z.div_mod num 16 ltac:(lia)) as Hdm.
    pose proof (Z.mod_pos_bound num 16 ltac:(lia)) as Hm.
    destruct (@hex_digit_nonzero (num mod 16) ltac:(lia)) as [c [Ec Hc]].
    rewrite Hq0, Ec, hex_loop_eq. simpl.
    exists c, acc. split; [reflexivity | exact Hc].
Qed.

Lemma convert_to_binary_nonneg (n : Z) :
  0 <= n ->
  digits_value 2 (convert_to_binary n) = Some n
  /\ no_leading_zero (convert_to_binary n).
Proof.
  intros H. unfold convert_to_binary.
  replace (n <? 0) with false by (symmetry; apply Z.ltb_ge; lia).
  destruct (Z.eqb_spec n 0) as [->|Hn].
  - split; [reflexivity | now left].
  - split.
    + rewrite (@binary_loop_value n [] 0 H eq_refl). f_equal. simpl. lia.
    + right. apply binary_loop_leading. lia.
Qed.

Lemma convert_to_hexadecimal_nonneg (n : Z) :
  0 <= n ->
  digits_value 16 (convert_to_hexadecimal n) = Some n
  /\ no_leading_zero (convert_to_hexadecimal n).
Proof.
  intros H. unfold convert_to_hexadecimal.
  replace (n <? 0) with false by (symmetry; apply Z.ltb_ge; lia).
  destruct (Z.eqb_spec n 0) as [->|Hn].
  - split; [reflexivity | now left].
  - split.
    + rewrite (@hex_loop_value n [] 0 H eq_refl). f_equal. simpl. lia.
    + right. apply hex_loop_leading. lia.
Qed.

Lemma digits_value_digits (base : Z) (s : pystr) :
  forall a v,
    fold_left (read_digit base) s (Some a) = Some v ->
    forallb (is_digit_of base) s = true.
Proof.
  induction s as [|c s IH]; intros a v H; [reflexivity|].
  cbn [fold_left forallb] in *. unfold is_digit_of at 1.
  remember (read_digit base (Some a) c) as r eqn:Hr.
  unfold read_digit in Hr.
  destruct (digit_value c) as [d|];
    [|subst r; now rewrite read_digits_none in H].
  destruct (d <? base); [|subst r; now rewrite read_digits_none in H].
  subst r. simpl. now apply IH with (a := a * base + d) (v := v).
Qed.

Example binary_minus_one : convert_to_binary (-1) = str "1111111111".
Proof. reflexivity. Qed.

Example binary_five : convert_to_binary 5 = str "101".
Proof. reflexivity. Qed.

Example binary_zero : convert_to_binary 0 = str "0".
Proof. reflexivity. Qed.

Example binary_truncates : convert_to_binary (-513) = str "0111111111".
Proof. reflexivity. Qed.

Example hexadecimal_minus_one : convert_to_hexadecimal (-1) = str "FFFFFFFF".
Proof. reflexivity. Qed.

Example hexadecimal_255 : convert_to_hexadecimal 255 = str "FF".
Proof. reflexivity. Qed.

Example hexadecimal_truncates :
  convert_to_hexadecimal (- 2 ^ 32 - 1) = str "FFFFFFFF".
Proof. reflexivity. Qed.

(** C2.  For [n < 0], [convert_to_binary n] is exactly 10 binary digits
    denoting [n mod 2^10], most significant first, and
    [convert_to_hexadecimal n] is exactly 8 upper-case hexadecimal digits
    denoting [n mod 2^32] (so numbers below the range are truncated, not
    rejected).  For [n >= 0] both strings denote [n] and have no leading
    zero, and both are ["0"] for [n = 0]. *)
Theorem conversion_formats (n : Z) :
  (n < 0 ->
     length (convert_to_binary n) = 10%nat
     /\ forallb (is_digit_of 2) (convert_to_binary n) = true
     /\ digits_value 2 (convert_to_binary n) = Some (n mod 2 ^ 10)
     /\ length (convert_to_hexadecimal n) = 8%nat
     /\ forallb (is_digit_of 16) (convert_to_hexadecimal n) = true
     /\ digits_value 16 (convert_to_hexadecimal n) = Some (n mod 2 ^ 32))
  /\ (0 <= n ->
     digits_value 2 (convert_to_binary n) = Some n
     /\ no_leading_zero (convert_to_binary n)
     /\ digits_value 16 (convert_to_hexadecimal n) = Some n
     /\ no_leading_zero (convert_to_hexadecimal n))
  /\ (n = 0 ->
     convert_to_binary n = str "0" /\ convert_to_hexadecimal n = str "0").
Proof.
  split; [|split].
  - intros H.
    destruct (convert_to_binary_negative H) as [B1 B2].
    destruct (convert_to_hexadecimal_negative H) as [H1 H2].
    repeat split; try assumption.
    + exact (digits_value_digits _ _ _ B2).
    + exact (digits_value_digits _ _ _ H2).
  - intros H.
    destruct (convert_to_binary_nonneg H) as [B1 B2].
    destruct (convert_to_hexadecimal_nonneg H) as [H1 H2].
    repeat split; assumption.
  - intros ->. split; reflexivity.
Qed.

End ConvProofs.

(** * Properties of wordCount.py *)

Module WordsProofs.
Import Words WordsSpec.

(** ** Tokenizer *)

Lemma scan_nil (cw : pystr) (ws : list pystr) : scan [] cw ws = (cw, ws).
Proof. reflexivity. Qed.

Lemma scan_space (c : ascii) (l cw : pystr) (ws : list pystr) :
  isspace c = true ->
  scan (c :: l) cw ws
  = match cw with
    | [] => scan l [] ws
    | _ => scan l [] (ws ++ [cw])
    end.
Proof.
  intros H. unfold scan. simpl. rewrite H. now destruct cw.
Qed.

Lemma scan_char (c : ascii) (l cw : pystr) (ws : list pystr) :
  isspace c = false -> scan (c :: l) cw ws = scan l (cw ++ [c]) ws.
Proof.
  intros H. unfold scan. simpl. now rewrite H.
Qed.

Lemma scan_app (l1 l2 cw : pystr) (ws : list pystr) :
  scan (l1 ++ l2) cw ws
  = scan l2 (fst (scan l1 cw ws)) (snd (scan l1 cw ws)).
Proof.
  unfold scan. rewrite fold_left_app.
  now destruct (fold_left scan_step l1 (cw, ws)).
Qed.

Lemma line_words_eq (words : list pystr) (line : pystr) :
  line_words words line = finish (scan (strip line) [] words).
Proof.
  unfold line_words, scan.
  destruct (strip line) as [|c l] eqn:E; [reflexivity|].
  destruct (fold_left scan_step (c :: l) ([], words)) as [cw ws].
  unfold finish. simpl. now destruct cw.
Qed.

Lemma scan_no_space (t cw : pystr) (ws : list pystr) :
  no_space t = true -> scan t cw ws = (cw ++ t, ws).
Proof.
  revert cw. induction t as [|c t IH]; intros cw H.
  - now rewrite scan_nil, app_nil_r.
  - simpl in H. apply andb_true_iff in H. destruct H as [Hc Ht].
    apply negb_true_iff in Hc. rewrite scan_char by exact Hc.
    rewrite IH by exact Ht. now rewrite <- app_assoc.
Qed.

(** Scanning the tokens joined by single spaces gives the tokens back. *)
Lemma scan_join_spaces (ts : list pystr) :
  Forall is_token ts ->
  forall ws, finish (scan (join_spaces ts) [] ws) = ws ++ ts.
Proof.
  induction ts as [|t ts IH]; intros H ws.
  - simpl. rewrite scan_nil. unfold finish. simpl. now rewrite app_nil_r.
  - inversion H as [|? ? [Hne Hns] Hts]; subst.
    destruct ts as [|t2 ts].
    + simpl. rewrite scan_no_space by exact Hns. unfold finish; simpl.
      destruct t; [congruence | reflexivity].
    + change (join_spaces (t :: t2 :: ts))
        with (t ++ " "%char :: join_spaces (t2 :: ts)).
      rewrite scan_app, (@scan_no_space t [] ws Hns). simpl fst; simpl snd.
      rewrite scan_space by reflexivity.
      destruct t as [|a t]; [congruence|].
      rewrite IH by exact Hts. now rewrite <- app_assoc.
Qed.

Lemma lstrip_no_space_head (c : ascii) (s : pystr) :
  isspace c = false -> lstrip (c :: s) = c :: s.
Proof. intros H. simpl. now rewrite H. Qed.

Lemma token_head (t : pystr) :
  is_token t -> exists c s, t = c :: s /\ isspace c = false.
Proof.
  intros [Hne Hns]. destruct t as [|c s]; [congruence|].
  exists c, s. split; [reflexivity|]. simpl in Hns.
  apply andb_true_iff in Hns. now apply negb_true_iff.
Qed.

Lemma forallb_rev (A : Type) (f : A -> bool) (l : list A) :
  forallb f (rev l) = forallb f l.
Proof.
  apply eq_true_iff_eq. rewrite !forallb_forall.
  split; intros H x Hx; apply H; [now apply -> in_rev | now apply <- in_rev].
Qed.

Lemma token_rev (t : pystr) : is_token t -> is_token (rev t).
Proof.
  intros [Hne Hns]. split; [|unfold no_space; now rewrite forallb_rev].
  intros E. apply Hne. apply (f_equal (@rev ascii)) in E.
  now rewrite rev_involutive in E.
Qed.

Lemma join_spaces_head (ts : list pystr) :
  Forall is_token ts -> ts <> [] ->
  exists c s, join_spaces ts = c :: s /\ isspace c = false.
Proof.
  intros H Hne. destruct ts as [|t ts]; [congruence|].
  inversion H as [|? ? Ht _]; subst.
  destruct (token_head Ht) as [c [s [-> Hc]]].
  destruct ts; simpl; eauto.
Qed.

Lemma join_spaces_last (ts : list pystr) :
  Forall is_token ts -> ts <> [] ->
  exists c s, rev (join_spaces ts) = c :: s /\ isspace c = false.
Proof.
  induction ts as [|t ts IH]; intros H Hne; [congruence|].
  inversion H as [|? ? Ht Hts]; subst.
  destruct ts as [|t2 ts].
  - simpl. apply token_head. now apply token_rev.
  - change (join_spaces (t :: t2 :: ts))
      with (t ++ " "%char :: join_spaces (t2 :: ts)).
    rewrite rev_app_distr.
    change (rev (" "%char :: join_spaces (t2 :: ts)))
      with (rev (join_spaces (t2 :: ts)) ++ [" "%char]).
    destruct (IH Hts ltac:(discriminate)) as [c [s [E Hc]]].
    rewrite E. simpl. eauto.
Qed.

(** Joined tokens have no whitespace to strip. *)
Lemma strip_join_spaces (ts : list pystr) :
  Forall is_token ts -> strip (join_spaces ts) = join_spaces ts.
Proof.
  intros H. destruct ts as [|t ts]; [reflexivity|].
  destruct (join_spaces_head H ltac:(discriminate)) as [c [s [E Hc]]].
  destruct (join_spaces_last H ltac:(discriminate)) as [d [r [E' Hd]]].
  unfold strip, rstrip. rewrite E, lstrip_no_space_head by exact Hc.
  rewrite <- E, E', lstrip_no_space_head by exact Hd.
  rewrite <- E'. apply rev_involutive.
Qed.

Lemma no_space_snoc (cw : pystr) (c : ascii) :
  no_space cw = true -> isspace c = false -> no_space (cw ++ [c]) = true.
Proof.
  intros H Hc. unfold no_space in *. rewrite forallb_app, H. simpl.
  now rewrite Hc.
Qed.

(** ** Tokens are the maximal runs of non-whitespace characters *)

Lemma scan_runs (l : pystr) :
  forall cw ws,
    no_space cw = true ->
    exists ts, finish (scan l cw ws) = ws ++ ts /\ runs (cw ++ l) ts.
Proof.
  induction l as [|c l IH]; intros cw ws Hcw.
  - rewrite scan_nil. unfold finish; simpl. destruct cw as [|a cw].
    + exists []. split; [now rewrite app_nil_r | constructor].
    + exists [a :: cw]. split; [reflexivity|].
      apply runs_token; [split; [discriminate | exact Hcw] | now right |].
      constructor.
  - destruct (isspace c) eqn:Hc.
    + rewrite scan_space by exact Hc. destruct cw as [|a cw].
      * destruct (IH [] ws eq_refl) as [ts [E R]]. exists ts.
        split; [exact E|]. simpl. now apply runs_space.
      * destruct (IH [] (ws ++ [a :: cw]) eq_refl) as [ts [E R]].
        exists ((a :: cw) :: ts). split.
        -- rewrite E, <- app_assoc. reflexivity.
        -- apply runs_token.
           ++ split; [discriminate | exact Hcw].
           ++ left. simpl. now rewrite Hc.
           ++ now apply runs_space.
    + rewrite scan_char by exact Hc.
      destruct (IH (cw ++ [c]) ws (no_space_snoc cw c Hcw Hc)) as [ts [E R]].
      exists ts. split; [exact E|]. now rewrite <- app_assoc in R.
Qed.

Lemma runs_tokens (l : pystr) (ts : list pystr) :
  runs l ts -> Forall is_token ts.
Proof. induction 1; auto. Qed.

Lemma runs_spaces (w : pystr) : forallb isspace w = true -> runs w [].
Proof.
  induction w as [|c w IH]; simpl; intros H; [constructor|].
  apply andb_true_iff in H. destruct H as [Hc Hw].
  apply runs_space; [exact Hc | now apply IH].
Qed.

Lemma runs_prepend_spaces (w l : pystr) (ts : list pystr) :
  forallb isspace w = true -> runs l ts -> runs (w ++ l) ts.
Proof.
  induction w as [|c w IH]; simpl; intros H R; [exact R|].
  apply andb_true_iff in H. destruct H as [Hc Hw].
  apply runs_space; [exact Hc | now apply IH].
Qed.

Lemma runs_append_spaces (w l : pystr) (ts : list pystr) :
  forallb isspace w = true -> runs l ts -> runs (l ++ w) ts.
Proof.
  intros Hw R. induction R as [|c l ts Hc R IH|t l ts Ht Hnext R IH]; simpl.
  - now apply runs_spaces.
  - now apply runs_space.
  - rewrite <- app_assoc. apply runs_token; [exact Ht | | exact IH].
    destruct Hnext as [Hn | ->].
    + left. destruct l as [|c l]; [discriminate | exact Hn].
    + destruct w as [|c w]; [now right|]. left. simpl in *.
      apply andb_true_iff in Hw. destruct Hw as [Hc _]. now rewrite Hc.
Qed.

Lemma lstrip_split (l : pystr) :
  exists w, l = w ++ lstrip l /\ forallb isspace w = true.
Proof.
  induction l as [|c l [w [E Hw]]]; simpl.
  - now exists [].
  - destruct (isspace c) eqn:Hc.
    + exists (c :: w). simpl. rewrite Hc, Hw. split; [now f_equal | reflexivity].
    + now exists [].
Qed.

Lemma strip_split (l : pystr) :
  exists w1 w2, l = w1 ++ strip l ++ w2
                /\ forallb isspace w1 = true /\ forallb isspace w2 = true.
Proof.
  destruct (lstrip_split l) as [w1 [E1 H1]].
  destruct (lstrip_split (rev (lstrip l))) as [w2 [E2 H2]].
  exists w1, (rev w2). split; [|split; [exact H1 | now rewrite forallb_rev]].
  unfold strip, rstrip. rewrite <- rev_app_distr, <- E2, rev_involutive.
  exact E1.
Qed.

Lemma tokenize_runs (line : pystr) : runs line (tokenize line).
Proof.
  unfold tokenize. rewrite line_words_eq.
  destruct (scan_runs (strip line) [] [] eq_refl) as [ts [E R]].
  rewrite E. simpl in *.
  destruct (strip_split line) as [w1 [w2 [El [H1 H2]]]].
  rewrite El at 1. apply runs_prepend_spaces; [exact H1|].
  now apply runs_append_spaces.
Qed.

Lemma tokenize_tokens (line : pystr) : Forall is_token (tokenize line).
Proof. apply runs_tokens with (l := line), tokenize_runs. Qed.

Lemma tokenize_join_spaces (ts : list pystr) :
  Forall is_token ts -> tokenize (join_spaces ts) = ts.
Proof.
  intros H. unfold tokenize.
  rewrite line_words_eq, strip_join_spaces by exact H.
  now rewrite scan_join_spaces.
Qed.

(** [read_words] gathers the tokens of the lines, in order. *)
Lemma scan_words_prefix (l : pystr) :
  forall (cw : pystr) (ws ws0 : list pystr),
    scan l cw (ws ++ ws0)
    = (fst (scan l cw ws0), ws ++ snd (scan l cw ws0)).
Proof.
  induction l as [|c l IH]; intros cw ws ws0; [reflexivity|].
  destruct (isspace c) eqn:Hc.
  - rewrite !scan_space by exact Hc. destruct cw as [|a cw]; [apply IH|].
    rewrite <- app_assoc. apply IH.
  - rewrite !scan_char by exact Hc. apply IH.
Qed.

Lemma line_words_tokenize (words : list pystr) (line : pystr) :
  line_words words line = words ++ tokenize line.
Proof.
  unfold tokenize. rewrite !line_words_eq.
  pose proof (scan_words_prefix (strip line) [] words []) as E.
  rewrite app_nil_r in E. rewrite E.
  destruct (scan (strip line) [] []) as [cw ws].
  unfold finish; simpl. destruct cw; [reflexivity | now rewrite app_assoc].
Qed.

Lemma read_words_concat (lines : list pystr) :
  read_words lines = concat (map tokenize lines).
Proof.
  unfold read_words.
  assert (G : forall words,
             fold_left line_words lines words
             = words ++ concat (map tokenize lines)).
  { induction lines as [|l lines IH]; intros words; simpl.
    - now rewrite app_nil_r.
    - rewrite IH, line_words_tokenize, <- app_assoc. reflexivity. }
  apply G.
Qed.

Example tokenize_sample :
  tokenize (str "  The the   THE  ") = [str "The"; str "the"; str "THE"].
Proof. reflexivity. Qed.

Example tokenize_empty : tokenize (str "") = [].
Proof. reflexivity. Qed.

(** C9.  For every line, tokenizing the tokens of the line joined by single
    spaces gives the same tokens again; every token is non-empty and has no
    whitespace character, and the tokens are the maximal runs of
    non-whitespace characters of the line. *)
Theorem tokenize_roundtrip (line : pystr) :
  tokenize (join_spaces (tokenize line)) = tokenize line
  /\ Forall is_token (tokenize line)
  /\ runs line (tokenize line).
Proof.
  split; [apply tokenize_join_spaces, tokenize_tokens|].
  split; [apply tokenize_tokens | apply tokenize_runs].
Qed.

(** ** Word counter *)

Lemma pystr_eqb_eq (a b : pystr) : pystr_eqb a b = true <-> a = b.
Proof.
  revert b. induction a as [|c a IH]; intros [|d b]; simpl;
    try (split; [discriminate | congruence]); [tauto|].
  rewrite andb_true_iff, Ascii.eqb_eq, IH. split.
  - intros [-> ->]. reflexivity.
  - intros [= -> ->]. now split.
Qed.

Lemma pystr_eqb_refl (a : pystr) : pystr_eqb a a = true.
Proof. now apply pystr_eqb_eq. Qed.

Section DictLaws.
Variable V : Type.
Implicit Types (d : PyDict.dict pystr V) (k : pystr) (v : V).

(** Reading after writing. *)
Lemma get_set d k v k' :
  PyDict.get pystr_eqb (PyDict.set pystr_eqb d k v) k'
  = if pystr_eqb k k' then Some v else PyDict.get pystr_eqb d k'.
Proof.
  induction d as [|[k0 v0] d IH]; simpl.
  - reflexivity.
  - destruct (pystr_eqb k0 k) eqn:E; simpl.
    + apply pystr_eqb_eq in E. subst k0.
      now destruct (pystr_eqb k k').
    + rewrite IH. destruct (pystr_eqb k0 k') eqn:E'; [|reflexivity].
      apply pystr_eqb_eq in E'. subst k0.
      destruct (pystr_eqb k k') eqn:E2; [|reflexivity].
      apply pystr_eqb_eq in E2. subst k'.
      now rewrite pystr_eqb_refl in E.
Qed.
End DictLaws.

Lemma lower_word_map (word : pystr) : lower_word word = map lower_char word.
Proof.
  unfold lower_word.
  assert (G : forall w, fold_left (fun w char => w ++ [lower_char char]) word w
                        = w ++ map lower_char word).
  { induction word as [|c word IH]; intros w; simpl.
    - now rewrite app_nil_r.
    - rewrite IH, <- app_assoc. reflexivity. }
  apply G.
Qed.

Lemma lower_char_upper (c : ascii) :
  is_upper c = true -> nat_of_ascii (lower_char c) = nat_of_ascii c + 32.
Proof.
  intros H. unfold lower_char. unfold is_upper in H. rewrite H.
  apply andb_true_iff in H. destruct H as [_ H]. apply Nat.leb_le in H.
  apply nat_ascii_embedding. lia.
Qed.

Lemma lower_char_other (c : ascii) : is_upper c = false -> lower_char c = c.
Proof.
  intros H. unfold lower_char. unfold is_upper in H. now rewrite H.
Qed.

Lemma count_words_snoc (words : list pystr) (word : pystr) :
  count_words (words ++ [word]) = count_step (count_words words) word.
Proof. unfold count_words. now rewrite fold_left_app. Qed.

Lemma folded_count_snoc (k : pystr) (words : list pystr) (word : pystr) :
  folded_count k (words ++ [word])
  = folded_count k words + if pystr_eqb (lower_word word) k then 1 else 0.
Proof.
  unfold folded_count. rewrite filter_app, length_app. simpl.
  now destruct (pystr_eqb (lower_word word) k).
Qed.

(** The table maps each folded word to the number of words folding to it. *)
Lemma count_words_get (words : list pystr) (k : pystr) :
  PyDict.get pystr_eqb (count_words words) k
  = match folded_count k words with
    | O => None
    | n => Some n
    end.
Proof.
  induction words as [|word words IH] using rev_ind; [reflexivity|].
  rewrite count_words_snoc, folded_count_snoc. unfold count_step.
  destruct (pystr_eqb (lower_word word) k) eqn:E.
  - apply pystr_eqb_eq in E. subst k.
    rewrite IH.
    destruct (folded_count (lower_word word) words) as [|n];
      rewrite get_set, pystr_eqb_refl, !Nat.add_1_r; reflexivity.
  - rewrite Nat.add_0_r, <- IH.
    destruct (PyDict.get pystr_eqb (count_words words) (lower_word word));
      now rewrite get_set, E.
Qed.

Example count_the :
  count_words (tokenize (str "The the THE")) = [(str "the", 3)].
Proof. reflexivity. Qed.

Example count_dog :
  count_words [str "Dog,"; str "dog"] = [(str "dog,", 1); (str "dog", 1)].
Proof. reflexivity. Qed.

(** C8.  [count_words] folds a word character by character: a capital ASCII
    letter becomes the character 32 code points higher, every other
    character is unchanged; the table then maps each folded word to the
    number of words that fold to it.  The words of ["The the THE"] give
    exactly the table with ["the"] counted 3 times, and ["Dog,"] and
    ["dog"] are counted under different keys. *)
Theorem count_words_folds_ascii_letters :
  (forall c, if is_upper c
             then nat_of_ascii (lower_char c) = nat_of_ascii c + 32
             else lower_char c = c)
  /\ (forall word, lower_word word = map lower_char word)
  /\ (forall words k,
        PyDict.get pystr_eqb (count_words words) k
        = match folded_count k words with
          | O => None
          | n => Some n
          end)
  /\ count_words (tokenize (str "The the THE")) = [(str "the", 3)]
  /\ count_words [str "Dog,"; str "dog"] = [(str "dog,", 1); (str "dog", 1)].
Proof.
  split; [|split; [|split; [|split]]].
  - intros c. destruct (is_upper c) eqn:E;
      [now apply lower_char_upper | now apply lower_char_other].
  - apply lower_word_map.
  - apply count_words_get.
  - reflexivity.
  - reflexivity.
Qed.

End WordsProofs.

(** * Further properties of computeStatistics.py *)

Module StatsExtra.

Import Stats StatsSpec ExtraSpec StatsProofs.
Local Open Scope Q_scope.

(** ** More on quicksort *)

Lemma Qlt_bool_compat_l (x y p : Q) : x == y -> Qlt_bool x p = Qlt_bool y p.
Proof.
  intros E. destruct (Qlt_bool y p) eqn:H.
  - apply Qlt_bool_iff. apply Qlt_bool_iff in H. now rewrite E.
  - apply Qlt_bool_false_iff. apply Qlt_bool_false_iff in H. now rewrite E.
Qed.

Lemma Qeq_bool_compat_l (x y p : Q) : x == y -> Qeq_bool x p = Qeq_bool y p.
Proof.
  intros E. rewrite (Qeq_bool_sym x p), (Qeq_bool_sym y p).
  now apply Qeq_bool_compat_r.
Qed.

Lemma filter_filter_keep (A : Type) (f g : A -> bool) (l : list A) :
  (forall y, f y = true -> g y = true) ->
  filter f (filter g l) = filter f l.
Proof.
  intros H. induction l as [|a l IH]; simpl; [reflexivity|].
  destruct (g a) eqn:G; simpl.
  - now rewrite IH.
  - destruct (f a) eqn:F; [|exact IH]. apply H in F. congruence.
Qed.

Lemma filter_filter_drop (A : Type) (f g : A -> bool) (l : list A) :
  (forall y, f y = true -> g y = false) ->
  filter f (filter g l) = [].
Proof.
  intros H. induction l as [|a l IH]; simpl; [reflexivity|].
  destruct (g a) eqn:G; simpl; [|exact IH].
  destruct (f a) eqn:F; [|exact IH]. apply H in F. congruence.
Qed.

(** The elements equal to [x] all fall in the same part. *)
Lemma partition3_filter_eq (x pivot : Q) (arr : list Q) :
  let same := fun y => Qeq_bool y x in
  filter same (part_left (partition3 pivot arr))
  ++ filter same (part_middle (partition3 pivot arr))
  ++ filter same (part_right (partition3 pivot arr))
  = filter same arr.
Proof.
  intros same. rewrite partition3_spec.
  unfold part_left, part_middle, part_right; simpl.
  assert (L : forall y, same y = true -> Qlt_bool y pivot = Qlt_bool x pivot).
  { intros y Hy. apply Qlt_bool_compat_l. now apply Qeq_bool_iff. }
  assert (E : forall y, same y = true -> Qeq_bool y pivot = Qeq_bool x pivot).
  { intros y Hy. apply Qeq_bool_compat_l. now apply Qeq_bool_iff. }
  destruct (Qlt_bool x pivot) eqn:Hl.
  - rewrite filter_filter_keep by exact L.
    rewrite !filter_filter_drop.
    + now rewrite app_nil_r.
    + intros y Hy. now rewrite (L y Hy).
    + intros y Hy. now rewrite (L y Hy).
  - destruct (Qeq_bool x pivot) eqn:He.
    + rewrite (filter_filter_drop same) by exact L.
      rewrite (filter_filter_keep same)
        by (intros y Hy; now rewrite (L y Hy), (E y Hy)).
      rewrite filter_filter_drop
        by (intros y Hy; now rewrite (L y Hy), (E y Hy)).
      now rewrite app_nil_r.
    + rewrite (filter_filter_drop same) by exact L.
      rewrite (filter_filter_drop same)
        by (intros y Hy; now rewrite (L y Hy), (E y Hy)).
      rewrite filter_filter_keep
        by (intros y Hy; now rewrite (L y Hy), (E y Hy)).
      reflexivity.
Qed.

Lemma quicksort_filter_eq (x : Q) (arr : list Q) :
  filter (fun y => Qeq_bool y x) (quicksort arr)
  = filter (fun y => Qeq_bool y x) arr.
Proof.
  remember (length arr) as n eqn:Hn. revert arr Hn.
  induction n as [n IH] using lt_wf_ind. intros arr Hn.
  rewrite quicksort_eq. destruct (Nat.leb_spec (length arr) 1) as [H|H].
  - reflexivity.
  - rewrite !filter_app.
    rewrite (IH _ ltac:(subst n; now apply part_left_smaller) _ eq_refl).
    rewrite (IH _ ltac:(subst n; now apply part_right_smaller) _ eq_refl).
    apply partition3_filter_eq.
Qed.

Lemma StronglySorted_filter (f : Q -> bool) (l : list Q) :
  StronglySorted Qle l -> StronglySorted Qle (filter f l).
Proof.
  induction 1 as [|a l Hl IH Ha]; simpl; [constructor|].
  destruct (f a); [|exact IH]. constructor; [exact IH|].
  rewrite Forall_forall in *. intros y Hy. apply Ha.
  apply filter_In in Hy. tauto.
Qed.

(** A sorted list is the concatenation of its three parts. *)
Lemma sorted_partition3 (pivot : Q) (l : list Q) :
  StronglySorted Qle l ->
  part_left (partition3 pivot l) ++ part_middle (partition3 pivot l)
    ++ part_right (partition3 pivot l) = l.
Proof.
  rewrite partition3_spec. unfold part_left, part_middle, part_right; simpl.
  induction 1 as [|a l Hl IH Ha]; simpl; [reflexivity|].
  destruct (Qlt_bool a pivot) eqn:L; simpl; [now rewrite IH|].
  apply Qlt_bool_false_iff in L.
  assert (N : filter (fun x => Qlt_bool x pivot) l = []).
  { apply filter_none. intros y Hy. apply Qlt_bool_false_iff.
    rewrite Forall_forall in Ha. apply Qle_trans with a; auto. }
  rewrite N in *. simpl in *.
  destruct (Qeq_bool a pivot) eqn:E; simpl; [now rewrite IH|].
  assert (M : filter (fun x => negb (Qlt_bool x pivot) && Qeq_bool x pivot) l = []).
  { apply filter_none. intros y Hy. apply andb_false_iff. right.
    apply Qeq_bool_false_iff. intros Ey. apply Qeq_bool_false_iff in E.
    apply E. apply Qle_antisym; [|exact L].
    rewrite <- Ey. rewrite Forall_forall in Ha. auto. }
  rewrite M in *. simpl in *. now rewrite IH.
Qed.

Lemma quicksort_sorted_fixpoint (arr : list Q) :
  StronglySorted Qle arr -> quicksort arr = arr.
Proof.
  remember (length arr) as n eqn:Hn. revert arr Hn.
  induction n as [n IH] using lt_wf_ind. intros arr Hn Hs.
  rewrite quicksort_eq. destruct (Nat.leb_spec (length arr) 1) as [H|H].
  - reflexivity.
  - pose proof (sorted_partition3 (pivot_of arr) Hs) as P.
    rewrite partition3_spec in *. unfold part_left, part_right, part_middle in *.
    simpl in *.
    rewrite (IH (length (filter (fun x => Qlt_bool x (pivot_of arr)) arr))).
    + rewrite (IH (length (filter (fun x => negb (Qlt_bool x (pivot_of arr))
                                     && negb (Qeq_bool x (pivot_of arr))) arr))).
      * exact P.
      * subst n. pose proof (@part_right_smaller arr H) as S.
        rewrite partition3_spec in S. exact S.
      * reflexivity.
      * now apply StronglySorted_filter.
    + subst n. pose proof (@part_left_smaller arr H) as S.
      rewrite partition3_spec in S. exact S.
    + reflexivity.
    + now apply StronglySorted_filter.
Qed.


(** ** Square root *)

Lemma Qsquare_nonneg (d : Q) : 0 <= d * d.
Proof. nra. Qed.

Lemma Qsquare_zero (d : Q) : d * d == 0 -> d == 0.
Proof. intros H. nra. Qed.

Lemma Qdiv_mult_cancel (x g : Q) : ~ g == 0 -> g * (x / g) == x.
Proof. intros H. now apply Qmult_div_r. Qed.

(** One refinement from a guess that does not underestimate. *)
Lemma newton_step_bounds (x g : Q) :
  0 < x -> 0 < g -> x <= g * g ->
  let h := (g + x / g) / 2 in
  0 < h /\ h <= g /\ x <= h * h /\ (h * h - x) * 4 <= g * g - x.
Proof.
  intros Hx Hg Hsq h.
  assert (Hg0 : ~ g == 0) by (intros E; rewrite E in Hg; now apply Qlt_irrefl in Hg).
  pose proof (Qdiv_mult_cancel x Hg0) as Hq.
  assert (Hqpos : 0 < x / g).
  { apply Qlt_shift_div_l; [exact Hg | now rewrite Qmult_0_l]. }
  assert (Hh : h == (g + x / g) * (1 # 2)) by (unfold h; field; exact Hg0).
  set (q := x / g) in *.
  assert (Hqg : q <= g).
  { apply Qnot_lt_le. intros L. assert (g * g < g * q) by nra. lra. }
  repeat split.
  - lra.
  - lra.
  - rewrite Hh. nra.
  - rewrite Hh. nra.
Qed.

Lemma newton_loop_S (n : nat) (x g : Q) :
  newton_loop (S n) x g
  = bind (pydiv x g) (fun q => newton_loop n x ((g + q) / 2)).
Proof. reflexivity. Qed.

Lemma newton_loop_bounds (n : nat) (x : Q) :
  0 < x ->
  forall g, 0 < g -> x <= g * g ->
  exists r, newton_loop n x g = Ok r
            /\ 0 < r /\ r <= g /\ x <= r * r
            /\ (r * r - x) * inject_Z (4 ^ Z.of_nat n) <= g * g - x.
Proof.
  intros Hx. induction n as [|n IH]; intros g Hg Hsq.
  - exists g. cbn [newton_loop]. repeat split; try assumption;
      try apply Qle_refl.
    change (inject_Z (4 ^ Z.of_nat 0)) with 1. lra.
  - destruct (newton_step_bounds Hx Hg Hsq) as [H1 [H2 [H3 H4]]].
    rewrite newton_loop_S.
    rewrite pydiv_nonzero by (intros E; rewrite E in Hg; lra).
    cbn [bind].
    destruct (IH _ H1 H3) as [r [E [R1 [R2 [R3 R4]]]]].
    exists r. split; [exact E|]. repeat split; try assumption.
    + lra.
    + rewrite Nat2Z.inj_succ, Z.pow_succ_r by lia.
      rewrite inject_Z_mult. change (inject_Z 4) with 4.
      set (p := inject_Z (4 ^ Z.of_nat n)) in *.
      set (h := (g + x / g) / 2) in *. nra.
Qed.

Lemma sqrt_newton_bounds (x : Q) :
  0 < x ->
  exists r, sqrt_newton x = Ok r
            /\ 0 < r /\ x <= r * r
            /\ (r * r - x) * inject_Z (4 ^ 20) <= (x - 1) * (x - 1)
            /\ r <= (x + 1) / 2.
Proof.
  intros Hx. unfold sqrt_newton.
  replace (Qlt_bool x 0) with false
    by (symmetry; apply Qlt_bool_false_iff; lra).
  replace (Qeq_bool x 0) with false
    by (symmetry; apply Qeq_bool_false_iff; intros E; rewrite E in Hx; lra).
  rewrite newton_loop_S.
  assert (Hx0 : ~ x == 0) by (intros E; rewrite E in Hx; lra).
  rewrite pydiv_nonzero by exact Hx0. cbn [bind].
  set (g := (x + x / x) / 2).
  assert (Hg : g == (x + 1) * (1 # 2)) by (unfold g; field; exact Hx0).
  assert (Hg1 : g == (x + 1) / 2) by (unfold g; field; exact Hx0).
  destruct (@newton_loop_bounds 19 x Hx g) as [r [E [R1 [R2 [R3 R4]]]]].
  - rewrite Hg. lra.
  - rewrite Hg. pose proof (Qsquare_nonneg (x - 1)). lra.
  - exists r. split; [exact E|]. repeat split; try assumption.
    + change (inject_Z (4 ^ 20)) with (inject_Z (4 ^ Z.of_nat 19) * 4).
      set (p := inject_Z (4 ^ Z.of_nat 19)) in *.
      assert (G : (g * g - x) * 4 == (x - 1) * (x - 1)) by (rewrite Hg; ring).
      nra.
    + now rewrite <- Hg1.
Qed.

(** ** Mean and variance *)

Lemma Qsum_bounds (data : list Q) (a b : Q) :
  (forall x, In x data -> a <= x <= b) ->
  a * inject_Z (Z.of_nat (length data)) <= Qsum data
  /\ Qsum data <= b * inject_Z (Z.of_nat (length data)).
Proof.
  induction data as [|x data IH]; intros H.
  - change (inject_Z (Z.of_nat (length (@nil Q)))) with 0.
    change (Qsum []) with 0. split; lra.
  - destruct IH as [I1 I2]; [intros y Hy; apply H; now right|].
    destruct (H x (or_introl eq_refl)) as [H1 H2].
    change (length (x :: data)) with (S (length data)).
    rewrite Nat2Z.inj_succ. unfold Z.succ. rewrite inject_Z_plus.
    change (inject_Z 1) with 1. simpl Qsum.
    set (n := inject_Z (Z.of_nat (length data))) in *. split; lra.
Qed.

Lemma calculate_mean_bounds (data : list Q) (a b : Q) :
  data <> [] -> (forall x, In x data -> a <= x <= b) ->
  a <= calculate_mean data <= b.
Proof.
  intros Hne H. rewrite (calculate_mean_arithmetic Hne).
  destruct (Qsum_bounds data H) as [H1 H2]. unfold arithmetic_mean.
  assert (Hn : 0 < inject_Z (Z.of_nat (length data))).
  { change 0 with (inject_Z 0). rewrite <- Zlt_Qlt.
    destruct data; [congruence | simpl; lia]. }
  split.
  - apply Qle_shift_div_l; assumption.
  - apply Qle_shift_div_r; assumption.
Qed.

Lemma sum_squared_deviations_zero (data : list Q) (m : Q) :
  sum_squared_deviations data m == 0 <-> (forall x, In x data -> x == m).
Proof.
  unfold sum_squared_deviations. induction data as [|x data IH]; simpl.
  - split; [intros _ y [] | reflexivity].
  - fold (sum_squared_deviations data m) in *.
    pose proof (Qsum_squares_nonneg data m) as Hs.
    pose proof (Qsquare_nonneg (x - m)) as Hx.
    split.
    + intros H y [<-|Hy].
      * assert (Z : (x - m) * (x - m) == 0) by lra.
        apply Qsquare_zero in Z. lra.
      * apply IH; [lra | exact Hy].
    + intros H. assert (E : x == m) by (apply H; now left).
      assert (R : sum_squared_deviations data m == 0)
        by (apply IH; intros y Hy; apply H; now right).
      rewrite R, E. ring.
Qed.

Lemma calculate_variance_zero_iff (data : list Q) (m : Q) :
  (2 <= length data)%nat ->
  (calculate_variance data m == 0 <-> (forall x, In x data -> x == m)).
Proof.
  intros H. rewrite calculate_variance_large by exact H.
  rewrite <- sum_squared_deviations_zero.
  assert (Hn : 0 < inject_Z (Z.of_nat (length data) - 1)).
  { change 0 with (inject_Z 0). rewrite <- Zlt_Qlt. lia. }
  set (n := inject_Z (Z.of_nat (length data) - 1)) in *.
  set (s := sum_squared_deviations data m).
  assert (Hn0 : ~ n == 0) by lra.
  split; intros E.
  - assert (G : s == (s / n) * n) by (field; exact Hn0). rewrite G, E. ring.
  - rewrite E. field. exact Hn0.
Qed.

(** ** Median *)

Lemma Permutation_filter_length (f : Q -> bool) (l l' : list Q) :
  Permutation l l' -> length (filter f l) = length (filter f l').
Proof.
  induction 1 as [|x l l' _ IH|x y l|l l' l'' _ IH1 _ IH2]; simpl.
  - reflexivity.
  - destruct (f x); simpl; now rewrite IH.
  - destruct (f x), (f y); reflexivity.
  - now rewrite IH1.
Qed.

Lemma sorted_nth_le (s : list Q) :
  StronglySorted Qle s ->
  forall i j, (i <= j < length s)%nat -> nth i s 0 <= nth j s 0.
Proof.
  induction 1 as [|a s Hs IH Ha]; intros i j Hij; simpl in Hij; [lia|].
  destruct j as [|j].
  - replace i with O by lia. apply Qle_refl.
  - destruct i as [|i]; simpl.
    + rewrite Forall_forall in Ha. apply Ha, nth_In. lia.
    + apply IH. lia.
Qed.

Lemma filter_prefix_count (f : Q -> bool) (l : list Q) :
  forall c, (c <= length l)%nat ->
    (forall i, (i < c)%nat -> f (nth i l 0) = true) ->
    (c <= length (filter f l))%nat.
Proof.
  induction l as [|a l IH]; intros c Hc H; simpl in *; [lia|].
  destruct c as [|c]; [lia|].
  rewrite (H O) by lia. simpl. apply le_n_S. apply IH; [lia|].
  intros i Hi. apply (H (S i)). lia.
Qed.

Lemma filter_suffix_count (f : Q -> bool) (l : list Q) :
  forall k,
    (forall i, (k <= i < length l)%nat -> f (nth i l 0) = true) ->
    (length l - k <= length (filter f l))%nat.
Proof.
  induction l as [|a l IH]; intros k H; simpl in *; [lia|].
  destruct k as [|k].
  - rewrite (H O) by lia. simpl. apply le_n_S.
    specialize (IH O). rewrite Nat.sub_0_r in IH. apply IH.
    intros i Hi. apply (H (S i)). lia.
  - specialize (IH k). 
    assert (G : (length l - k <= length (filter f l))%nat).
    { apply IH. intros i Hi. apply (H (S i)). lia. }
    destruct (f a); simpl; lia.
Qed.

(** The median expression on a sorted non-empty list. *)
Lemma median_of_sorted (s : list Q) :
  StronglySorted Qle s -> s <> [] ->
  let n := Z.of_nat (length s) in
  exists m,
    (if (n mod 2 =? 1)%Z then getitem s (n / 2)
     else bind (getitem s (n / 2 - 1))
            (fun a => bind (getitem s (n / 2)) (fun b => Ok ((a + b) / 2))))
    = Ok m
    /\ (length s <= 2 * count_le m s)%nat
    /\ (length s <= 2 * count_ge m s)%nat.
Proof.
  intros Hs Hne n. unfold count_le, count_ge.
  assert (Hn : (0 < length s)%nat) by (destruct s; [congruence | simpl; lia]).
  pose proof (Z.div_mod n 2 ltac:(lia)) as Hdm.
  pose proof (Z.mod_pos_bound n 2 ltac:(lia)) as Hm.
  assert (Hk : Z.of_nat (Z.to_nat (n / 2)) = (n / 2)%Z).
  { apply Z2Nat.id. apply Z.div_pos; lia. }
  set (k := Z.to_nat (n / 2)) in *.
  destruct (Z.eqb_spec (n mod 2) 1) as [E|E].
  - rewrite getitem_in_range by (fold n; lia). fold k.
    set (c := nth k s 0).
    exists c. split; [reflexivity|]. split.
    + assert (G : (S k <= length (filter (fun x => Qle_bool x c) s))%nat).
      { apply filter_prefix_count; [lia|]. intros i Hi.
        apply Qle_bool_iff, sorted_nth_le; [exact Hs | lia]. }
      lia.
    + assert (G : (length s - k <= length (filter (fun x => Qle_bool c x) s))%nat).
      { apply filter_suffix_count. intros i Hi.
        apply Qle_bool_iff, sorted_nth_le; [exact Hs | lia]. }
      lia.
  - rewrite !getitem_in_range by (fold n; lia). cbn [bind].
    replace (Z.to_nat (n / 2 - 1)) with (k - 1)%nat by lia. fold k.
    set (a := nth (k - 1) s 0). set (b := nth k s 0).
    assert (Hab : a <= b) by (apply sorted_nth_le; [exact Hs | lia]).
    assert (Hmid : (a + b) / 2 == (a + b) * (1 # 2)) by field.
    set (c := (a + b) / 2) in *.
    exists c. split; [reflexivity|]. split.
    + assert (G : (k <= length (filter (fun x => Qle_bool x c) s))%nat).
      { apply filter_prefix_count; [lia|]. intros i Hi.
        apply Qle_bool_iff. apply Qle_trans with a.
        - apply sorted_nth_le; [exact Hs | lia].
        - rewrite Hmid. lra. }
      lia.
    + assert (G : (length s - k <= length (filter (fun x => Qle_bool c x) s))%nat).
      { apply filter_suffix_count. intros i Hi.
        apply Qle_bool_iff. apply Qle_trans with b.
        - rewrite Hmid. lra.
        - apply sorted_nth_le; [exact Hs | lia]. }
      lia.
Qed.

Lemma calculate_median_halves (data : list Q) :
  data <> [] ->
  exists m, calculate_median data = Ok m
            /\ (length data <= 2 * count_le m data)%nat
            /\ (length data <= 2 * count_ge m data)%nat.
Proof.
  intros Hne.
  assert (Hne' : quicksort data <> []).
  { intros E. apply (f_equal (@length Q)) in E.
    rewrite quicksort_length in E. destruct data; [congruence | discriminate]. }
  destruct (median_of_sorted (quicksort_sorted data) Hne') as [m [E [H1 H2]]].
  exists m. split; [exact E|].
  unfold count_le, count_ge in *.
  rewrite quicksort_length in H1, H2.
  rewrite <- (Permutation_filter_length _ (quicksort_perm data)) in H1.
  rewrite <- (Permutation_filter_length _ (quicksort_perm data)) in H2.
  split; assumption.
Qed.

(** ** Frequency table *)

Lemma sum_counts_step (frequency : PyDict.dict Q nat) (num : Q) :
  sum_counts (frequency_step frequency num) = S (sum_counts frequency).
Proof.
  unfold frequency_step, sum_counts, PyDict.values.
  induction frequency as [|[k v] d IH]; simpl; [reflexivity|].
  destruct (Qeq_bool k num); simpl; [lia|]. rewrite IH. lia.
Qed.

Lemma sum_counts_build (data : list Q) :
  sum_counts (build_frequency data) = length data.
Proof.
  unfold build_frequency.
  induction data as [|x data IH] using rev_ind; [reflexivity|].
  rewrite fold_left_app, length_app. simpl.
  rewrite sum_counts_step, IH. lia.
Qed.

Lemma get_on_keys (f : Q -> nat) (ks : list Q) (x : Q) :
  (forall k, k == x -> f k = f x) ->
  PyDict.get Qeq_bool (map (fun k => (k, f k)) ks) x
  = if existsb (fun k => Qeq_bool k x) ks then Some (f x) else None.
Proof.
  intros H. induction ks as [|k ks IH]; simpl; [reflexivity|].
  destruct (Qeq_bool k x) eqn:E; simpl; [|exact IH].
  f_equal. apply H. now apply Qeq_bool_iff.
Qed.

Lemma occurrences_existsb (x : Q) (data : list Q) :
  existsb (fun y => Qeq_bool y x) data = negb (occurrences x data =? 0)%nat.
Proof.
  unfold occurrences. induction data as [|a data IH]; simpl; [reflexivity|].
  destruct (Qeq_bool a x); simpl; [reflexivity | exact IH].
Qed.

Lemma build_frequency_get (data : list Q) (x : Q) :
  PyDict.get Qeq_bool (build_frequency data) x
  = if (occurrences x data =? 0)%nat then None
    else Some (occurrences x data).
Proof.
  rewrite build_frequency_spec, get_on_keys.
  - rewrite existsb_first_occurrences, occurrences_existsb.
    now destruct (occurrences x data =? 0)%nat.
  - intros k Hk. now apply occurrences_compat.
Qed.

(** ** Mode and statistics record *)

Lemma tied_values_nonempty (data : list Q) :
  data <> [] -> tied_values data <> [].
Proof.
  intros Hne E.
  destruct (max_occurrences_attained Hne) as [x [Hx Hmax]].
  apply first_occurrences_InA, InA_alt in Hx. destruct Hx as [k [Ek Hk]].
  assert (G : In k (tied_values data)).
  { apply tied_values_In. split; [exact Hk|].
    now rewrite <- (occurrences_compat data Ek). }
  rewrite E in G. contradiction.
Qed.

Lemma tied_values_sound (data : list Q) (m : Q) :
  In m (tied_values data) ->
  In m data
  /\ forall y, In y data -> (occurrences y data <= occurrences m data)%nat.
Proof.
  intros H. apply tied_values_In in H. destruct H as [H1 H2].
  split; [now apply first_occurrences_In|].
  intros y Hy. rewrite H2. now apply occurrences_le_max.
Qed.

Lemma calculate_mode_sound (data : list Q) :
  match calculate_mode data with
  | NoUniqueMode => True
  | ModeValue m =>
      In m data
      /\ forall y, In y data -> (occurrences y data <= occurrences m data)%nat
  | ModeList ms =>
      (2 <= length ms)%nat
      /\ NoDupA Qeq ms
      /\ forall m, In m ms ->
           In m data
           /\ forall y, In y data ->
                (occurrences y data <= occurrences m data)%nat
  end.
Proof.
  rewrite calculate_mode_spec.
  destruct (Nat.eqb_spec (length (tied_values data))
              (length (first_occurrences data))) as [E|E]; [exact I|].
  assert (Hne : data <> []).
  { intros ->. apply E. reflexivity. }
  pose proof (tied_values_nonempty Hne) as Ht.
  destruct (Nat.eqb_spec (length (tied_values data)) 1) as [E1|E1].
  - destruct (tied_values data) as [|m [|m' l]] eqn:T; try discriminate.
    simpl. apply tied_values_sound. rewrite T. now left.
  - split; [|split].
    + destruct (tied_values data) as [|m [|m' l]]; simpl in *; try congruence; lia.
    + unfold tied_values. apply NoDupA_filter, first_occurrences_NoDupA.
    + apply tied_values_sound.
Qed.

Lemma compute_statistics_fields (data : list Q) :
  data <> [] ->
  exists s, compute_statistics data = Ok s
            /\ count s = length data
            /\ mean s = calculate_mean data
            /\ calculate_median data = Ok (median s)
            /\ mode s = calculate_mode data
            /\ variance s = calculate_variance data (calculate_mean data)
            /\ sqrt_newton (variance s) = Ok (std_deviation s)
            /\ 0 <= variance s
            /\ 0 <= std_deviation s.
Proof.
  intros Hne. unfold compute_statistics.
  destruct (calculate_median_nonempty Hne) as [m Em]. rewrite Em. cbn [bind].
  destruct (@sqrt_newton_nonneg
              (calculate_variance data (calculate_mean data))
              (calculate_variance_nonneg _ _)) as [r [Er Hr]].
  rewrite Er. cbn [bind]. eexists. split; [reflexivity|]. simpl.
  repeat split; try assumption. apply calculate_variance_nonneg.
Qed.

(** ** Properties beyond the specification *)

(** X1.  [quicksort] is stable: the elements equal to [x] appear in the
    result in the same order as in the input. *)
Theorem quicksort_stable (x : Q) (arr : list Q) :
  filter (fun y => Qeq_bool y x) (quicksort arr)
  = filter (fun y => Qeq_bool y x) arr.
Proof. apply quicksort_filter_eq. Qed.

(** X2.  A list that is already in non-decreasing order is returned
    unchanged. *)
Theorem quicksort_sorted_unchanged (arr : list Q) :
  StronglySorted Qle arr -> quicksort arr = arr.
Proof. apply quicksort_sorted_fixpoint. Qed.

Lemma quicksort_sorted_unchanged_witness :
  StronglySorted Qle [1; 2; 2; 5] /\ quicksort [1; 2; 2; 5] = [1; 2; 2; 5].
Proof.
  assert (S : StronglySorted Qle [1; 2; 2; 5]).
  { repeat constructor; discriminate. }
  split; [exact S | apply (@quicksort_sorted_unchanged [1; 2; 2; 5] S)].
Defined.

(** X3.  Sorting twice is sorting once. *)
Theorem quicksort_idempotent (arr : list Q) :
  quicksort (quicksort arr) = quicksort arr.
Proof. apply quicksort_sorted_fixpoint, quicksort_sorted. Qed.







(** X7.  [calculate_variance] is never negative, whatever mean it is
    given. *)
Theorem calculate_variance_nonnegative (data : list Q) (mean_value : Q) :
  0 <= calculate_variance data mean_value.
Proof. apply calculate_variance_nonneg. Qed.





(** X10.  The frequency table of [calculate_mode]: its counts add up to the
    number of elements, its keys are pairwise different numbers, and looking
    a number up gives its number of occurrences, or nothing when it does not
    occur. *)
Theorem build_frequency_table (data : list Q) :
  sum_counts (build_frequency data) = length data
  /\ NoDupA Qeq (PyDict.keys (build_frequency data))
  /\ forall x, PyDict.get Qeq_bool (build_frequency data) x
               = if (occurrences x data =? 0)%nat then None
                 else Some (occurrences x data).
Proof.
  split; [apply sum_counts_build|]. split; [|apply build_frequency_get].
  rewrite build_frequency_keys. apply first_occurrences_NoDupA.
Qed.

(** X11.  Whatever [calculate_mode] returns is sound: a returned number is
    an element of the data that no element outnumbers; a returned list has
    at least two pairwise different numbers, each of them such an
    element. *)
Theorem calculate_mode_returns_most_frequent (data : list Q) :
  match calculate_mode data with
  | NoUniqueMode => True
  | ModeValue m =>
      In m data
      /\ forall y, In y data -> (occurrences y data <= occurrences m data)%nat
  | ModeList ms =>
      (2 <= length ms)%nat
      /\ NoDupA Qeq ms
      /\ forall m, In m ms ->
           In m data
           /\ forall y, In y data ->
                (occurrences y data <= occurrences m data)%nat
  end.
Proof. apply calculate_mode_sound. Qed.

End StatsExtra.

(** * Further properties of convertNumbers.py *)

Module ConvExtra.

Import Conv ConvSpec ConvProofs.
Local Open Scope Z_scope.

Lemma digit_value_range (c : ascii) (d : Z) :
  digit_value c = Some d -> 0 <= d < 16.
Proof.
  unfold digit_value.
  destruct ((48 <=? _) && (_ <=? 57)) eqn:E.
  - apply andb_true_iff in E. intros [= <-]. lia.
  - destruct ((65 <=? _) && (_ <=? 70)) eqn:F; [|discriminate].
    apply andb_true_iff in F. intros [= <-]. lia.
Qed.

Lemma digit_value_inj (c c' : ascii) (d : Z) :
  digit_value c = Some d -> digit_value c' = Some d -> c = c'.
Proof.
  unfold digit_value. intros H H'.
  assert (E : nat_of_ascii c = nat_of_ascii c').
  { destruct ((48 <=? Z.of_nat (nat_of_ascii c)) && (_ <=? 57)) eqn:A;
    destruct ((48 <=? Z.of_nat (nat_of_ascii c')) && (_ <=? 57)) eqn:A';
    try (destruct ((65 <=? Z.of_nat (nat_of_ascii c)) && (_ <=? 70)) eqn:B);
    try (destruct ((65 <=? Z.of_nat (nat_of_ascii c')) && (_ <=? 70)) eqn:B');
    try discriminate;
    repeat match goal with
           | H : _ && _ = true |- _ => apply andb_true_iff in H
           end;
    injection H as <-; injection H' as H'; lia. }
  rewrite <- (ascii_nat_embedding c), <- (ascii_nat_embedding c'). now f_equal.
Qed.

(** A digit string read after [a]: the digits alone denote a number below
    [base ^ length]. *)
Lemma read_digits_split (base : Z) (s : pystr) :
  0 < base ->
  forall a v,
    fold_left (read_digit base) s (Some a) = Some v ->
    exists r, digits_value base s = Some r
              /\ v = a * base ^ Z.of_nat (length s) + r
              /\ 0 <= r < base ^ Z.of_nat (length s).
Proof.
  intros Hb. induction s as [|c s IH] using rev_ind; intros a v H.
  - simpl in H. injection H as <-. exists 0. simpl. split; [reflexivity|]. lia.
  - rewrite fold_left_app in H. simpl in H.
    destruct (fold_left (read_digit base) s (Some a)) as [w|] eqn:E;
      [|discriminate].
    destruct (IH a w E) as [r [Hr [Hw Hrange]]].
    unfold read_digit in H.
    destruct (digit_value c) as [d|] eqn:D; [|discriminate].
    destruct (Z.ltb_spec d base) as [L|L]; [|discriminate].
    injection H as <-.
    pose proof (digit_value_range c D) as Hd.
    exists (r * base + d). split; [|split].
    + unfold digits_value in *. rewrite fold_left_app, Hr. simpl.
      unfold read_digit. rewrite D.
      destruct (Z.ltb_spec d base); [reflexivity | lia].
    + rewrite length_app. simpl. rewrite Nat2Z.inj_add, Z.pow_add_r by lia.
      change (Z.of_nat 1) with 1. rewrite Z.pow_1_r. subst w. ring.
    + rewrite length_app. simpl. rewrite Nat2Z.inj_add, Z.pow_add_r by lia.
      change (Z.of_nat 1) with 1. rewrite Z.pow_1_r. nia.
Qed.

Lemma digits_value_cons (base : Z) (c : ascii) (s : pystr) (v : Z) :
  0 < base -> digits_value base (c :: s) = Some v ->
  exists d r, digit_value c = Some d /\ d < base
              /\ digits_value base s = Some r
              /\ v = d * base ^ Z.of_nat (length s) + r
              /\ 0 <= r < base ^ Z.of_nat (length s).
Proof.
  intros Hb H. unfold digits_value in H. cbn [fold_left] in H.
  remember (read_digit base (Some 0) c) as st eqn:Hst.
  unfold read_digit in Hst.
  destruct (digit_value c) as [d|] eqn:D;
    [|subst st; now rewrite read_digits_none in H].
  destruct (Z.ltb_spec d base) as [L|L];
    [|subst st; now rewrite read_digits_none in H].
  subst st. destruct (read_digits_split s Hb _ H) as [r [Hr [Hv Hrange]]].
  exists d, r. repeat split; try assumption; lia.
Qed.

(** Two digit strings of the same length denoting the same number are the
    same string. *)
Lemma digits_value_unique (base : Z) (s : pystr) :
  0 < base ->
  forall t v, length s = length t ->
    digits_value base s = Some v -> digits_value base t = Some v -> s = t.
Proof.
  intros Hb. induction s as [|c s IH]; intros [|c' t] v Hl Hs Ht;
    try discriminate; [reflexivity|].
  injection Hl as Hl.
  destruct (@digits_value_cons base c s v Hb Hs) as [d [r [D [Ld [Hr [Hv Hrange]]]]]].
  destruct (@digits_value_cons base c' t v Hb Ht) as [d' [r' [D' [Ld' [Hr' [Hv' Hrange']]]]]].
  rewrite <- Hl in *.
  pose proof (digit_value_range c D). pose proof (digit_value_range c' D').
  assert (P : 0 < base ^ Z.of_nat (length s)) by (apply Z.pow_pos_nonneg; lia).
  assert (Ed : d = d') by nia. subst d'.
  assert (Er : r = r') by nia. subst r'.
  f_equal; [exact (digit_value_inj c c' D D') | exact (IH t r Hl Hr Hr')].
Qed.

(** ** Width of the natural representation *)

Lemma log2_half (num : Z) : 2 <= num -> Z.log2 num = Z.log2 (num / 2) + 1.
Proof.
  intros H. pose proof (Z.log2_shiftr num 1 ltac:(lia)) as E.
  rewrite Z.shiftr_div_pow2 in E by lia. change (2 ^ 1) with 2 in E.
  assert (1 <= Z.log2 num) by (apply Z.log2_le_pow2; simpl; lia).
  lia.
Qed.

Lemma log2_sixteenth (num : Z) :
  16 <= num -> Z.log2 num = Z.log2 (num / 16) + 4.
Proof.
  intros H. pose proof (Z.log2_shiftr num 4 ltac:(lia)) as E.
  rewrite Z.shiftr_div_pow2 in E by lia. change (2 ^ 4) with 16 in E.
  assert (4 <= Z.log2 num) by (apply Z.log2_le_pow2; simpl; lia).
  lia.
Qed.

Lemma binary_loop_length (num : Z) :
  forall acc : pystr,
    0 < num ->
    Z.of_nat (length (binary_loop num acc))
    = Z.of_nat (length acc) + Z.log2 num + 1.
Proof.
  pattern num. apply (@quotient_ind 2); [lia|]. clear num. intros num IH.
  intros acc Hpos. rewrite binary_loop_eq.
  replace (0 <? num) with true by (symmetry; now apply Z.ltb_lt).
  destruct (Z.ltb_spec 0 (num / 2)) as [Hq|Hq].
  - rewrite (IH Hpos (str_digit (num mod 2) ++ acc) Hq).
    change (length (str_digit (num mod 2) ++ acc)) with (S (length acc)).
    assert (2 <= num).
    { destruct (Z.ltb_spec num 2); [|lia].
      rewrite Z.div_small in Hq by lia. lia. }
    rewrite (log2_half H). lia.
  - assert (Hq0 : num / 2 = 0) by (pose proof (Z.div_pos num 2); lia).
    assert (num = 1).
    { pose proof (Z.div_mod num 2 ltac:(lia)).
      pose proof (Z.mod_pos_bound num 2 ltac:(lia)). lia. }
    subst num. rewrite Hq0, binary_loop_eq. change (0 <? 0) with false. cbv iota.
    change (length (str_digit (1 mod 2) ++ acc)) with (S (length acc)).
    change (Z.log2 1) with 0. lia.
Qed.

Lemma hex_loop_length (num : Z) :
  forall acc : pystr,
    0 < num ->
    Z.of_nat (length (hex_loop num acc))
    = Z.of_nat (length acc) + Z.log2 num / 4 + 1.
Proof.
  pattern num. apply (@quotient_ind 16); [lia|]. clear num. intros num IH.
  intros acc Hpos. rewrite hex_loop_eq.
  replace (0 <? num) with true by (symmetry; now apply Z.ltb_lt).
  destruct (Z.ltb_spec 0 (num / 16)) as [Hq|Hq].
  - rewrite (IH Hpos (hex_digit (num mod 16) ++ acc) Hq).
    change (length (hex_digit (num mod 16) ++ acc)) with (S (length acc)).
    assert (16 <= num).
    { destruct (Z.ltb_spec num 16); [|lia].
      rewrite Z.div_small in Hq by lia. lia. }
    rewrite (log2_sixteenth H).
    replace (Z.log2 (num / 16) + 4) with (Z.log2 (num / 16) + 1 * 4) by lia.
    rewrite Z.div_add by lia. lia.
  - assert (Hq0 : num / 16 = 0) by (pose proof (Z.div_pos num 16); lia).
    assert (Hlt : num < 16).
    { pose proof (Z.div_mod num 16 ltac:(lia)).
      pose proof (Z.mod_pos_bound num 16 ltac:(lia)). lia. }
    rewrite Hq0, hex_loop_eq. change (0 <? 0) with false. cbv iota.
    change (length (hex_digit (num mod 16) ++ acc)) with (S (length acc)).
    assert (Z.log2 num < 4) by (apply Z.log2_lt_pow2; simpl; lia).
    pose proof (Z.log2_nonneg num).
    rewrite Z.div_small by lia. lia.
Qed.

Lemma convert_to_binary_negative_mod (n m : Z) :
  n < 0 -> m < 0 -> n mod 2 ^ 10 = m mod 2 ^ 10 ->
  convert_to_binary n = convert_to_binary m.
Proof.
  intros Hn Hm E. unfold convert_to_binary.
  replace (n <? 0) with true by (symmetry; now apply Z.ltb_lt).
  replace (m <? 0) with true by (symmetry; now apply Z.ltb_lt).
  cbv zeta. rewrite !land_mask_mod by lia. now rewrite E.
Qed.

Lemma convert_to_hexadecimal_negative_mod (n m : Z) :
  n < 0 -> m < 0 -> n mod 2 ^ 32 = m mod 2 ^ 32 ->
  convert_to_hexadecimal n = convert_to_hexadecimal m.
Proof.
  intros Hn Hm E. unfold convert_to_hexadecimal.
  replace (n <? 0) with true by (symmetry; now apply Z.ltb_lt).
  replace (m <? 0) with true by (symmetry; now apply Z.ltb_lt).
  cbv zeta. rewrite !land_mask_mod by lia. now rewrite E.
Qed.

Lemma convert_to_binary_length (n : Z) :
  0 < n -> Z.of_nat (length (convert_to_binary n)) = Z.log2 n + 1.
Proof.
  intros H. unfold convert_to_binary.
  replace (n <? 0) with false by (symmetry; apply Z.ltb_ge; lia).
  replace (n =? 0) with false by (symmetry; apply Z.eqb_neq; lia).
  rewrite binary_loop_length by exact H. simpl. lia.
Qed.

Lemma convert_to_hexadecimal_length (n : Z) :
  0 < n -> Z.of_nat (length (convert_to_hexadecimal n)) = Z.log2 n / 4 + 1.
Proof.
  intros H. unfold convert_to_hexadecimal.
  replace (n <? 0) with false by (symmetry; apply Z.ltb_ge; lia).
  replace (n =? 0) with false by (symmetry; apply Z.eqb_neq; lia).
  rewrite hex_loop_length by exact H. simpl. lia.
Qed.

(** ** Properties beyond the specification *)

(** X12.  Two negative numbers have the same binary string exactly when
    they are congruent modulo [2^10], and the same hexadecimal string
    exactly when they are congruent modulo [2^32]. *)
Theorem negative_conversion_congruence (n m : Z) :
  n < 0 -> m < 0 ->
  (convert_to_binary n = convert_to_binary m
   <-> n mod 2 ^ 10 = m mod 2 ^ 10)
  /\ (convert_to_hexadecimal n = convert_to_hexadecimal m
      <-> n mod 2 ^ 32 = m mod 2 ^ 32).
Proof.
  intros Hn Hm. split; split.
  - intros E. destruct (convert_to_binary_negative Hn) as [_ V].
    destruct (convert_to_binary_negative Hm) as [_ V'].
    rewrite E in V. congruence.
  - now apply convert_to_binary_negative_mod.
  - intros E. destruct (convert_to_hexadecimal_negative Hn) as [_ V].
    destruct (convert_to_hexadecimal_negative Hm) as [_ V'].
    rewrite E in V. congruence.
  - now apply convert_to_hexadecimal_negative_mod.
Qed.

Lemma negative_conversion_congruence_witness :
  -1 < 0 /\ -1025 < 0
  /\ (convert_to_binary (-1) = convert_to_binary (-1025)
      <-> (-1) mod 2 ^ 10 = (-1025) mod 2 ^ 10).
Proof.
  split; [lia|]. split; [lia|].
  apply (@negative_conversion_congruence (-1) (-1025)); lia.
Defined.

(** X13.  On non-negative numbers both conversions are injective. *)
Theorem nonnegative_conversion_injective (n m : Z) :
  0 <= n -> 0 <= m ->
  (convert_to_binary n = convert_to_binary m -> n = m)
  /\ (convert_to_hexadecimal n = convert_to_hexadecimal m -> n = m).
Proof.
  intros Hn Hm. split; intros E.
  - destruct (convert_to_binary_nonneg Hn) as [V _].
    destruct (convert_to_binary_nonneg Hm) as [V' _].
    rewrite E in V. congruence.
  - destruct (convert_to_hexadecimal_nonneg Hn) as [V _].
    destruct (convert_to_hexadecimal_nonneg Hm) as [V' _].
    rewrite E in V. congruence.
Qed.

Lemma nonnegative_conversion_injective_witness :
  0 <= 5 /\ 0 <= 5
  /\ (convert_to_binary 5 = convert_to_binary 5 -> 5 = 5).
Proof.
  split; [lia|]. split; [lia|].
  apply (@nonnegative_conversion_injective 5 5); lia.
Defined.

(** X14.  For [n > 0] the binary string has [log2 n + 1] digits and the
    hexadecimal string [log2 n / 4 + 1]. *)
Theorem natural_width (n : Z) :
  0 < n ->
  Z.of_nat (length (convert_to_binary n)) = Z.log2 n + 1
  /\ Z.of_nat (length (convert_to_hexadecimal n)) = Z.log2 n / 4 + 1.
Proof.
  intros H. split;
    [now apply convert_to_binary_length
    | now apply convert_to_hexadecimal_length].
Qed.

Lemma natural_width_witness :
  0 < 255
  /\ Z.of_nat (length (convert_to_binary 255)) = Z.log2 255 + 1
  /\ Z.of_nat (length (convert_to_hexadecimal 255)) = Z.log2 255 / 4 + 1.
Proof.
  split; [lia | apply (@natural_width 255); lia].
Defined.

(** X15.  The string of a negative number cannot be told from that of a
    non-negative one: when the masked value has its top binary digit set
    (its top hexadecimal digit non-zero), the string of [n] is the string of
    the non-negative number [n mod 2^10] (of [n mod 2^32]). *)
Theorem negative_reads_as_unsigned (n : Z) :
  n < 0 ->
  (2 ^ 9 <= n mod 2 ^ 10 ->
   convert_to_binary n = convert_to_binary (n mod 2 ^ 10))
  /\ (2 ^ 28 <= n mod 2 ^ 32 ->
      convert_to_hexadecimal n = convert_to_hexadecimal (n mod 2 ^ 32)).
Proof.
  intros Hn. split; intros Hv.
  - pose proof (Z.mod_pos_bound n (2 ^ 10) ltac:(lia)) as Hb.
    destruct (convert_to_binary_negative Hn) as [L V].
    assert (Hpos : 0 < n mod 2 ^ 10)
      by (change (2 ^ 9) with 512 in Hv; lia).
    destruct (@convert_to_binary_nonneg (n mod 2 ^ 10) (Z.lt_le_incl _ _ Hpos))
      as [V' _].
    apply (@digits_value_unique 2 _ ltac:(lia) _ (n mod 2 ^ 10));
      try assumption.
    apply Nat2Z.inj. rewrite (@convert_to_binary_length (n mod 2 ^ 10) Hpos).
    rewrite L.
    rewrite (Z.log2_unique (n mod 2 ^ 10) 9);
      [reflexivity | lia | split; [exact Hv | apply Hb]].
  - pose proof (Z.mod_pos_bound n (2 ^ 32) ltac:(lia)) as Hb.
    destruct (convert_to_hexadecimal_negative Hn) as [L V].
    assert (Hpos : 0 < n mod 2 ^ 32)
      by (change (2 ^ 28) with 268435456 in Hv; lia).
    destruct (@convert_to_hexadecimal_nonneg (n mod 2 ^ 32)
                (Z.lt_le_incl _ _ Hpos)) as [V' _].
    apply (@digits_value_unique 16 _ ltac:(lia) _ (n mod 2 ^ 32));
      try assumption.
    apply Nat2Z.inj.
    rewrite (@convert_to_hexadecimal_length (n mod 2 ^ 32) Hpos).
    rewrite L.
    assert (B : 28 <= Z.log2 (n mod 2 ^ 32) < 32).
    { split; [apply Z.log2_le_pow2; [exact Hpos | exact Hv]
             | apply Z.log2_lt_pow2; [exact Hpos | apply Hb]]. }
    assert (Q : Z.log2 (n mod 2 ^ 32) / 4 = 7).
    { symmetry. apply Z.div_unique with (r := Z.log2 (n mod 2 ^ 32) - 28); lia. }
    rewrite Q. reflexivity.
Qed.

Lemma negative_reads_as_unsigned_witness :
  -1 < 0
  /\ (2 ^ 9 <= (-1) mod 2 ^ 10 ->
      convert_to_binary (-1) = convert_to_binary ((-1) mod 2 ^ 10)).
Proof.
  split; [lia | apply (@negative_reads_as_unsigned (-1)); lia].
Defined.

End ConvExtra.

(** * Further properties of wordCount.py *)

Module WordsExtra.

Import Words WordsSpec ExtraSpec WordsProofs.

(** ** Tokenizer *)

Lemma scan_leading_spaces (w l : pystr) (ws : list pystr) :
  forallb isspace w = true -> scan (w ++ l) [] ws = scan l [] ws.
Proof.
  induction w as [|c w IH]; simpl; intros H; [reflexivity|].
  apply andb_true_iff in H. destruct H as [Hc Hw].
  rewrite scan_space by exact Hc. now apply IH.
Qed.

Lemma finish_scan_spaces (w cw : pystr) (ws : list pystr) :
  forallb isspace w = true -> finish (scan w cw ws) = finish (cw, ws).
Proof.
  revert cw ws. induction w as [|c w IH]; intros cw ws H; [reflexivity|].
  simpl in H. apply andb_true_iff in H. destruct H as [Hc Hw].
  rewrite scan_space by exact Hc. destruct cw as [|a cw].
  - now apply IH.
  - rewrite IH by exact Hw. reflexivity.
Qed.

(** The call to [strip] does not change the words found. *)
Lemma tokenize_unstripped (line : pystr) :
  tokenize line = finish (scan line [] []).
Proof.
  unfold tokenize. rewrite line_words_eq.
  destruct (strip_split line) as [w1 [w2 [E [H1 H2]]]].
  rewrite E at 2. rewrite scan_leading_spaces by exact H1.
  rewrite scan_app.
  destruct (scan (strip line) [] []) as [cw ws]. simpl fst; simpl snd.
  now rewrite finish_scan_spaces.
Qed.

Lemma tokenize_outer_spaces (w1 w2 line : pystr) :
  forallb isspace w1 = true -> forallb isspace w2 = true ->
  tokenize (w1 ++ line ++ w2) = tokenize line.
Proof.
  intros H1 H2. rewrite !tokenize_unstripped.
  rewrite scan_leading_spaces by exact H1. rewrite scan_app.
  destruct (scan line [] []) as [cw ws]. simpl fst; simpl snd.
  now rewrite finish_scan_spaces.
Qed.

Lemma finish_scan_prefix (l : pystr) (ws : list pystr) :
  finish (scan l [] ws) = ws ++ finish (scan l [] []).
Proof.
  pose proof (scan_words_prefix l [] ws []) as E.
  rewrite app_nil_r in E. rewrite E.
  destruct (scan l [] []) as [cw ws']. unfold finish; simpl.
  destruct cw; [reflexivity | now rewrite app_assoc].
Qed.

Lemma tokenize_split (l1 l2 : pystr) (c : ascii) :
  isspace c = true ->
  tokenize (l1 ++ c :: l2) = tokenize l1 ++ tokenize l2.
Proof.
  intros Hc. rewrite !tokenize_unstripped, scan_app.
  destruct (scan l1 [] []) as [cw ws]. simpl fst; simpl snd.
  rewrite scan_space by exact Hc. unfold finish at 2; simpl fst; simpl snd.
  destruct cw as [|a cw]; apply finish_scan_prefix.
Qed.

Lemma runs_concat (l : pystr) (ts : list pystr) :
  runs l ts -> concat ts = filter (fun c => negb (isspace c)) l.
Proof.
  induction 1 as [|c l ts Hc R IH|t l ts [Hne Hns] Hnext R IH]; simpl.
  - reflexivity.
  - now rewrite Hc.
  - rewrite filter_app, <- IH. f_equal. symmetry.
    apply forallb_filter_id. exact Hns.
Qed.

Lemma tokenize_blank (w : pystr) :
  forallb isspace w = true -> tokenize w = [].
Proof.
  intros H. rewrite tokenize_unstripped. now rewrite finish_scan_spaces.
Qed.

(** ** Word counter *)

Lemma lower_char_idem (c : ascii) : lower_char (lower_char c) = lower_char c.
Proof.
  destruct (is_upper c) eqn:U.
  - pose proof (lower_char_upper c U) as E.
    apply lower_char_other. unfold is_upper in *. rewrite E.
    apply andb_true_iff in U. destruct U as [U1 U2].
    apply Nat.leb_le in U1, U2. apply andb_false_iff. right.
    apply Nat.leb_gt. lia.
  - now rewrite !(lower_char_other c U).
Qed.

Lemma lower_word_idem (w : pystr) : lower_word (lower_word w) = lower_word w.
Proof.
  rewrite !lower_word_map, map_map. apply map_ext. apply lower_char_idem.
Qed.

Lemma count_step_folded (d : PyDict.dict pystr nat) (w : pystr) :
  count_step d (lower_word w) = count_step d w.
Proof. unfold count_step. now rewrite lower_word_idem. Qed.

Lemma count_words_same_folds (ws ws' : list pystr) :
  Forall2 (fun a b => lower_word a = lower_word b) ws ws' ->
  count_words ws = count_words ws'.
Proof.
  intros H. unfold count_words. generalize (@nil (pystr * nat)).
  induction H as [|a b ws ws' Hab _ IH]; intros d; simpl; [reflexivity|].
  rewrite <- (count_step_folded d a), <- (count_step_folded d b), Hab.
  apply IH.
Qed.

Lemma sum_counts_count_step (d : PyDict.dict pystr nat) (w : pystr) :
  sum_counts (count_step d w) = S (sum_counts d).
Proof.
  unfold count_step, sum_counts, PyDict.values.
  generalize (lower_word w). intros k.
  induction d as [|[k0 v0] d IH]; simpl; [reflexivity|].
  destruct (pystr_eqb k0 k) eqn:E; simpl; [lia|].
  destruct (PyDict.get pystr_eqb d k); simpl in *; lia.
Qed.

Lemma sum_counts_words (words : list pystr) :
  sum_counts (count_words words) = length words.
Proof.
  induction words as [|w words IH] using rev_ind; [reflexivity|].
  rewrite count_words_snoc, sum_counts_count_step, IH, length_app. simpl. lia.
Qed.

Lemma get_none_keys (V : Type) (d : PyDict.dict pystr V) (k : pystr) :
  PyDict.get pystr_eqb d k = None <-> ~ In k (PyDict.keys d).
Proof.
  unfold PyDict.keys. induction d as [|[k0 v0] d IH]; simpl; [tauto|].
  destruct (pystr_eqb k0 k) eqn:E.
  - apply pystr_eqb_eq in E. split; [discriminate | tauto].
  - rewrite IH. split; [|tauto]. intros H [G|G]; [|tauto].
    subst k0. now rewrite pystr_eqb_refl in E.
Qed.

Lemma keys_set (V : Type) (d : PyDict.dict pystr V) (k : pystr) (v : V) :
  PyDict.keys (PyDict.set pystr_eqb d k v)
  = match PyDict.get pystr_eqb d k with
    | Some _ => PyDict.keys d
    | None => PyDict.keys d ++ [k]
    end.
Proof.
  unfold PyDict.keys. induction d as [|[k0 v0] d IH]; simpl; [reflexivity|].
  destruct (pystr_eqb k0 k) eqn:E; simpl; [reflexivity|].
  rewrite IH. now destruct (PyDict.get pystr_eqb d k).
Qed.

Lemma count_step_keys (d : PyDict.dict pystr nat) (w : pystr) :
  PyDict.keys (count_step d w)
  = match PyDict.get pystr_eqb d (lower_word w) with
    | Some _ => PyDict.keys d
    | None => PyDict.keys d ++ [lower_word w]
    end.
Proof.
  unfold count_step.
  destruct (PyDict.get pystr_eqb d (lower_word w)) eqn:E;
    now rewrite keys_set, E.
Qed.

Lemma count_words_keys_nodup (words : list pystr) :
  NoDup (PyDict.keys (count_words words)).
Proof.
  induction words as [|w words IH] using rev_ind; [constructor|].
  rewrite count_words_snoc, count_step_keys.
  destruct (PyDict.get pystr_eqb (count_words words) (lower_word w)) eqn:E;
    [exact IH|].
  apply get_none_keys in E.
  apply NoDup_app; [exact IH | repeat constructor; tauto |].
  intros x Hx [<-|[]]. contradiction.
Qed.

Lemma folded_count_pos (k : pystr) (words : list pystr) :
  folded_count k words <> O <-> exists w, In w words /\ lower_word w = k.
Proof.
  unfold folded_count. split.
  - intros H.
    destruct (filter (fun w => pystr_eqb (lower_word w) k) words)
      as [|w l] eqn:F; [contradiction|].
    assert (I : In w (filter (fun w => pystr_eqb (lower_word w) k) words))
      by (rewrite F; now left).
    apply filter_In in I. destruct I as [I1 I2]. exists w.
    split; [exact I1 | now apply pystr_eqb_eq].
  - intros [w [I E]] Z.
    assert (G : In w (filter (fun w => pystr_eqb (lower_word w) k) words)).
    { apply filter_In. split; [exact I | now apply pystr_eqb_eq]. }
    destruct (filter _ words); [contradiction | discriminate].
Qed.

Lemma count_words_keys_in (words : list pystr) (k : pystr) :
  In k (PyDict.keys (count_words words))
  <-> exists w, In w words /\ lower_word w = k.
Proof.
  rewrite <- folded_count_pos. split.
  - intros H Z. apply (proj1 (get_none_keys (count_words words) k)); [|exact H].
    rewrite count_words_get, Z. reflexivity.
  - intros H.
    destruct (in_dec (list_eq_dec ascii_dec) k (PyDict.keys (count_words words)))
      as [I|N]; [exact I|].
    apply get_none_keys in N. rewrite count_words_get in N.
    destruct (folded_count k words); [contradiction | discriminate].
Qed.

Lemma read_words_one (line : pystr) : read_words [line] = tokenize line.
Proof. rewrite read_words_concat. simpl. apply app_nil_r. Qed.

Lemma read_words_app_lines (ls1 ls2 : list pystr) :
  read_words (ls1 ++ ls2) = read_words ls1 ++ read_words ls2.
Proof. rewrite !read_words_concat, map_app. apply concat_app. Qed.

Lemma read_words_characters (lines : list pystr) :
  concat (read_words lines)
  = filter (fun c => negb (isspace c)) (concat lines).
Proof.
  rewrite read_words_concat.
  induction lines as [|l lines IH]; simpl; [reflexivity|].
  rewrite concat_app, filter_app, IH. f_equal.
  apply runs_concat, tokenize_runs.
Qed.

Lemma lower_word_key (words : list pystr) (k : pystr) :
  In k (PyDict.keys (count_words words)) -> lower_word k = k.
Proof.
  intros H. apply count_words_keys_in in H. destruct H as [w [_ <-]].
  apply lower_word_idem.
Qed.

(** ** Properties beyond the specification *)

(** X16.  Whitespace before and after a line changes nothing: the words of
    the line are those of the line without it, so the call to [strip] is not
    needed for the result. *)
Theorem read_words_outer_whitespace (w1 w2 line : pystr) :
  forallb isspace w1 = true -> forallb isspace w2 = true ->
  read_words [w1 ++ line ++ w2] = read_words [line].
Proof.
  intros H1 H2. rewrite !read_words_one. now apply tokenize_outer_spaces.
Qed.

Lemma read_words_outer_whitespace_witness :
  forallb isspace (str "  ") = true /\ forallb isspace (str " ") = true
  /\ read_words [str "  " ++ str "a b" ++ str " "] = read_words [str "a b"].
Proof.
  split; [reflexivity|]. split; [reflexivity|].
  apply (@read_words_outer_whitespace (str "  ") (str " ") (str "a b"));
    reflexivity.
Defined.

(** X17.  Breaking a line at a whitespace character into two lines gives
    the same words. *)
Theorem read_words_split_line (ls1 ls2 : list pystr) (l1 l2 : pystr) (c : ascii) :
  isspace c = true ->
  read_words (ls1 ++ [l1 ++ c :: l2] ++ ls2)
  = read_words (ls1 ++ [l1; l2] ++ ls2).
Proof.
  intros Hc. rewrite !read_words_app_lines. f_equal. f_equal.
  rewrite read_words_one. change [l1; l2] with ([l1] ++ [l2]).
  rewrite read_words_app_lines, !read_words_one.
  now apply tokenize_split.
Qed.

Lemma read_words_split_line_witness :
  isspace " "%char = true
  /\ read_words ([] ++ [str "ab" ++ " "%char :: str "cd"] ++ [])
     = read_words ([] ++ [str "ab"; str "cd"] ++ []).
Proof.
  split; [reflexivity|].
  apply (@read_words_split_line [] [] (str "ab") (str "cd") " "%char).
  reflexivity.
Defined.

(** X18.  No character is lost or reordered: the words of a file, put
    together, are the non-whitespace characters of its lines in order. *)
Theorem read_words_keeps_characters (lines : list pystr) :
  concat (read_words lines)
  = filter (fun c => negb (isspace c)) (concat lines).
Proof. apply read_words_characters. Qed.

(** X19.  The words of a file are the words of its lines in order: reading
    the lines of two files one after the other gives the words of the first
    followed by those of the second. *)
Theorem read_words_app (ls1 ls2 : list pystr) :
  read_words (ls1 ++ ls2) = read_words ls1 ++ read_words ls2.
Proof. apply read_words_app_lines. Qed.

(** X20.  Counting does not see the case of ASCII letters: two word lists
    whose words fold to the same strings, one by one, give the same
    table. *)
Theorem count_words_case_insensitive (ws ws' : list pystr) :
  Forall2 (fun a b => lower_word a = lower_word b) ws ws' ->
  count_words ws = count_words ws'.
Proof. apply count_words_same_folds. Qed.

Lemma count_words_case_insensitive_witness :
  Forall2 (fun a b => lower_word a = lower_word b)
    [str "The"; str "DOG"] [str "tHE"; str "dog"]
  /\ count_words [str "The"; str "DOG"] = count_words [str "tHE"; str "dog"].
Proof.
  assert (F : Forall2 (fun a b => lower_word a = lower_word b)
                [str "The"; str "DOG"] [str "tHE"; str "dog"]).
  { repeat constructor. }
  split; [exact F | apply (@count_words_case_insensitive _ _ F)].
Defined.

(** X21.  The table of [count_words]: its keys are pairwise distinct and
    are exactly the folded forms of the words, each key is its own folded
    form, and the counts add up to the number of words. *)
Theorem count_words_table (words : list pystr) :
  NoDup (PyDict.keys (count_words words))
  /\ (forall k, In k (PyDict.keys (count_words words))
                <-> exists w, In w words /\ lower_word w = k)
  /\ (forall k, In k (PyDict.keys (count_words words)) -> lower_word k = k)
  /\ sum_counts (count_words words) = length words.
Proof.
  split; [apply count_words_keys_nodup|].
  split; [apply count_words_keys_in|].
  split; [apply lower_word_key | apply sum_counts_words].
Qed.

End WordsExtra.

(** * Properties of the listing of wordCount.py *)

Module OutputProofs.

Import Words Output OutputSpec.

(** ** The order on strings *)

Lemma pystr_ltb_irrefl (a : pystr) : pystr_ltb a a = false.
Proof.
  induction a as [|c a IH]; simpl; [reflexivity|].
  now rewrite Nat.ltb_irrefl.
Qed.

Lemma nat_of_ascii_inj (c d : ascii) : nat_of_ascii c = nat_of_ascii d -> c = d.
Proof.
  intros H. rewrite <- (ascii_nat_embedding c), <- (ascii_nat_embedding d).
  now f_equal.
Qed.

Lemma pystr_ltb_trichotomy (a b : pystr) :
  pystr_ltb a b = true \/ a = b \/ pystr_ltb b a = true.
Proof.
  revert b. induction a as [|c a IH]; intros [|d b]; simpl; auto.
  destruct (Nat.ltb_spec (nat_of_ascii c) (nat_of_ascii d)) as [H|H]; auto.
  destruct (Nat.ltb_spec (nat_of_ascii d) (nat_of_ascii c)) as [H'|H']; auto.
  assert (E : c = d) by (apply nat_of_ascii_inj; lia). subst d.
  destruct (IH b) as [G|[->|G]]; auto.
Qed.

Lemma pystr_ltb_trans (a b c : pystr) :
  pystr_ltb a b = true -> pystr_ltb b c = true -> pystr_ltb a c = true.
Proof.
  revert b c. induction a as [|x a IH]; intros [|y b] [|z c]; simpl;
    try discriminate; auto.
  destruct (Nat.ltb_spec (nat_of_ascii x) (nat_of_ascii y)) as [H1|H1].
  - intros _.
    destruct (Nat.ltb_spec (nat_of_ascii y) (nat_of_ascii z)) as [H2|H2].
    + intros _. destruct (Nat.ltb_spec (nat_of_ascii x) (nat_of_ascii z)); [reflexivity|lia].
    + destruct (Nat.ltb_spec (nat_of_ascii z) (nat_of_ascii y)) as [H3|H3];
        [discriminate|]. intros _.
      destruct (Nat.ltb_spec (nat_of_ascii x) (nat_of_ascii z)); [reflexivity|lia].
  - destruct (Nat.ltb_spec (nat_of_ascii y) (nat_of_ascii x)) as [H1'|H1'];
      [discriminate|]. intros Hab.
    destruct (Nat.ltb_spec (nat_of_ascii y) (nat_of_ascii z)) as [H2|H2].
    + intros _. destruct (Nat.ltb_spec (nat_of_ascii x) (nat_of_ascii z)); [reflexivity|lia].
    + destruct (Nat.ltb_spec (nat_of_ascii z) (nat_of_ascii y)) as [H3|H3];
        [discriminate|]. intros Hbc.
      destruct (Nat.ltb_spec (nat_of_ascii x) (nat_of_ascii z)); [reflexivity|].
      destruct (Nat.ltb_spec (nat_of_ascii z) (nat_of_ascii x)); [lia|].
      now apply IH with b.
Qed.

Lemma pystr_ltb_asym (a b : pystr) :
  pystr_ltb a b = true -> pystr_ltb b a = false.
Proof.
  intros H. destruct (pystr_ltb b a) eqn:E; [|reflexivity].
  pose proof (pystr_ltb_trans _ _ _ H E) as T.
  now rewrite pystr_ltb_irrefl in T.
Qed.

Lemma pystr_le_refl (a : pystr) : pystr_le a a.
Proof. apply pystr_ltb_irrefl. Qed.

Lemma pystr_le_trans (a b c : pystr) :
  pystr_le a b -> pystr_le b c -> pystr_le a c.
Proof.
  unfold pystr_le, pystr_gtb. intros H1 H2.
  destruct (pystr_ltb c a) eqn:E; [|reflexivity].
  destruct (pystr_ltb_trichotomy a b) as [G|[->|G]].
  - pose proof (pystr_ltb_trans _ _ _ E G). congruence.
  - congruence.
  - congruence.
Qed.

Lemma pystr_lt_le (a b : pystr) : pystr_gtb a b = true -> pystr_le b a.
Proof. unfold pystr_le, pystr_gtb. apply pystr_ltb_asym. Qed.

(** ** One pass *)

Lemma list_assign_app (pre l : list pystr) (j : nat) (v : pystr) :
  list_assign (pre ++ l) (length pre + j) v = pre ++ list_assign l j v.
Proof.
  induction pre as [|p pre IH]; simpl; [reflexivity|]. now rewrite IH.
Qed.

Lemma nth_app_offset (pre l : list pystr) (j : nat) :
  nth (length pre + j) (pre ++ l) [] = nth j l [].
Proof.
  rewrite app_nth2 by lia. f_equal. lia.
Qed.

Lemma compare_swap_app (pre : list pystr) (x y : pystr) (l : list pystr) :
  compare_swap (pre ++ x :: y :: l) (length pre)
  = pre ++ (if pystr_gtb x y then y :: x :: l else x :: y :: l).
Proof.
  assert (A : nth (length pre) (pre ++ x :: y :: l) [] = x).
  { rewrite <- (Nat.add_0_r (length pre)). now rewrite nth_app_offset. }
  assert (B : nth (length pre + 1) (pre ++ x :: y :: l) [] = y)
    by now rewrite nth_app_offset.
  unfold compare_swap. cbv zeta. rewrite A, B.
  destruct (pystr_gtb x y); [|reflexivity].
  rewrite <- (Nat.add_0_r (length pre)) at 1.
  rewrite list_assign_app. cbn [list_assign].
  rewrite list_assign_app. reflexivity.
Qed.

(** The indexed pass and the recursive one agree. *)
Lemma fold_compare_swap (m : nat) :
  forall pre l,
    (m < length l)%nat ->
    fold_left compare_swap (seq (length pre) m) (pre ++ l) = pre ++ bubble m l.
Proof.
  induction m as [|m IH]; intros pre l Hm; [now destruct l|].
  destruct l as [|x [|y l]]; simpl in Hm; try lia.
  cbn [seq fold_left]. rewrite compare_swap_app.
  cbn [bubble]. destruct (pystr_gtb x y).
  - replace (pre ++ y :: x :: l) with ((pre ++ [y]) ++ x :: l)
      by now rewrite <- app_assoc.
    replace (S (length pre)) with (length (pre ++ [y]))
      by (rewrite length_app; simpl; lia).
    rewrite IH by (simpl; lia). now rewrite <- app_assoc.
  - replace (pre ++ x :: y :: l) with ((pre ++ [x]) ++ y :: l)
      by now rewrite <- app_assoc.
    replace (S (length pre)) with (length (pre ++ [x]))
      by (rewrite length_app; simpl; lia).
    rewrite IH by (simpl; lia). now rewrite <- app_assoc.
Qed.

Lemma bubble_pass_eq (n i : nat) (keys : list pystr) :
  (n - i - 1 < length keys)%nat ->
  bubble_pass n keys i = bubble (n - i - 1) keys.
Proof.
  intros H. unfold bubble_pass.
  apply (@fold_compare_swap (n - i - 1) [] keys H).
Qed.

Lemma bubble_perm (m : nat) :
  forall l, Permutation l (bubble m l).
Proof.
  induction m as [|m IH]; intros l; [now destruct l|].
  destruct l as [|x [|y l]]; simpl; try reflexivity.
  destruct (pystr_gtb x y).
  - rewrite perm_swap. constructor. apply IH.
  - constructor. apply IH.
Qed.

Lemma bubble_app (m : nat) :
  forall l1 l2, (m < length l1)%nat -> bubble m (l1 ++ l2) = bubble m l1 ++ l2.
Proof.
  induction m as [|m IH]; intros l1 l2 H.
  - destruct l1; [simpl in H; lia|]. now destruct l1.
  - destruct l1 as [|x [|y l1]]; simpl in H; try lia.
    simpl. destruct (pystr_gtb x y); simpl; f_equal.
    + apply (IH (x :: l1) l2). simpl. lia.
    + apply (IH (y :: l1) l2). simpl. lia.
Qed.

(** A pass over a whole list brings a largest element to the end. *)
Lemma bubble_max (m : nat) :
  forall l, length l = S m ->
    exists pre mx, bubble m l = pre ++ [mx]
                   /\ Forall (fun x => pystr_le x mx) pre.
Proof.
  induction m as [|m IH]; intros l Hl.
  - destruct l as [|x [|y l]]; try discriminate. exists [], x. now split.
  - destruct l as [|x [|y l]]; try discriminate. simpl in Hl.
    cbn [bubble]. destruct (pystr_gtb x y) eqn:G.
    + destruct (IH (x :: l) ltac:(simpl; lia)) as [pre [mx [E F]]].
      exists (y :: pre), mx. rewrite E. split; [reflexivity|].
      constructor; [|exact F].
      assert (Hx : pystr_le x mx).
      { assert (I : In x (pre ++ [mx])).
        { rewrite <- E. apply (Permutation_in _ (bubble_perm m (x :: l))).
          now left. }
        apply in_app_or in I. destruct I as [I|[<-|[]]].
        - rewrite Forall_forall in F. now apply F.
        - apply pystr_le_refl. }
      apply pystr_le_trans with x; [now apply pystr_lt_le | exact Hx].
    + destruct (IH (y :: l) ltac:(simpl; lia)) as [pre [mx [E F]]].
      exists (x :: pre), mx. rewrite E. split; [reflexivity|].
      constructor; [|exact F].
      assert (Hy : pystr_le y mx).
      { assert (I : In y (pre ++ [mx])).
        { rewrite <- E. apply (Permutation_in _ (bubble_perm m (y :: l))).
          now left. }
        apply in_app_or in I. destruct I as [I|[<-|[]]].
        - rewrite Forall_forall in F. now apply F.
        - apply pystr_le_refl. }
      apply pystr_le_trans with y; [exact G | exact Hy].
Qed.

(** ** All passes *)

Lemma sorted_keys_passes (keys : list pystr) (i : nat) :
  (i <= length keys)%nat ->
  exists pre suf,
    fold_left (bubble_pass (length keys)) (seq 0 i) keys = pre ++ suf
    /\ length suf = i
    /\ Permutation keys (pre ++ suf)
    /\ StronglySorted pystr_le suf
    /\ Forall (fun x => Forall (pystr_le x) suf) pre.
Proof.
  induction i as [|i IH]; intros Hi.
  - exists keys, []. simpl. rewrite app_nil_r.
    repeat split; try reflexivity; try constructor.
    apply Forall_forall. intros x _. constructor.
  - destruct (IH ltac:(lia)) as [pre [suf [E [Hl [Hp [Hs Hf]]]]]].
    rewrite seq_S, fold_left_app. simpl. rewrite E.
    assert (Hlen : length (pre ++ suf) = length keys)
      by (symmetry; now apply Permutation_length).
    rewrite length_app in Hlen.
    set (m := (length keys - i - 1)%nat).
    assert (Hpre : length pre = S m) by (unfold m; lia).
    rewrite bubble_pass_eq by (rewrite length_app; lia). fold m.
    rewrite bubble_app by lia.
    destruct (bubble_max pre Hpre) as [pre' [mx [Eb Fb]]].
    pose proof (bubble_perm m pre) as Pb. rewrite Eb in *.
    exists pre', (mx :: suf). split; [now rewrite <- app_assoc|].
    split; [simpl; lia|].
    assert (Hmx : Forall (pystr_le mx) suf).
    { rewrite Forall_forall in Hf. apply Hf.
      apply (Permutation_in _ (Permutation_sym Pb)).
      apply in_or_app. right. now left. }
    split; [|split].
    + rewrite Hp. change (pre' ++ mx :: suf) with (pre' ++ [mx] ++ suf).
      rewrite app_assoc. now apply Permutation_app_tail.
    + now constructor.
    + apply Forall_forall. intros x Hx. constructor.
      * rewrite Forall_forall in Fb. now apply Fb.
      * rewrite Forall_forall in Hf. apply Hf.
        apply (Permutation_in _ (Permutation_sym Pb)).
        apply in_or_app. now left.
Qed.

Lemma sorted_keys_sorted_perm (keys : list pystr) :
  StronglySorted pystr_le (sorted_keys keys)
  /\ Permutation keys (sorted_keys keys).
Proof.
  unfold sorted_keys.
  destruct (@sorted_keys_passes keys (length keys) (le_n _))
    as [pre [suf [E [Hl [Hp [Hs _]]]]]].
  assert (Hpre : pre = []).
  { pose proof (Permutation_length Hp) as L. rewrite length_app in L.
    destruct pre; [reflexivity | simpl in L; lia]. }
  subst pre. simpl in *. rewrite E. now split.
Qed.

Example sorted_keys_sample :
  sorted_keys [str "the"; str "dog,"; str "dog"; str "Zebra"]
  = [str "Zebra"; str "dog"; str "dog,"; str "the"].
Proof. reflexivity. Qed.

Lemma strict_of_nodup (l : list pystr) :
  StronglySorted pystr_le l -> NoDup l ->
  StronglySorted (fun a b => pystr_ltb a b = true) l.
Proof.
  induction 1 as [|a l Hs IH Ha]; intros Hn; [constructor|].
  inversion Hn as [|? ? Hna Hnl]; subst.
  constructor; [now apply IH|].
  rewrite Forall_forall in *. intros b Hb. specialize (Ha b Hb).
  destruct (pystr_ltb_trichotomy a b) as [G|[->|G]];
    [exact G | contradiction | unfold pystr_le, pystr_gtb in Ha; congruence].
Qed.

(** ** Properties beyond the specification *)

(** X22.  The ordering loop of [format_results] is a sort: the result is a
    permutation of the keys in which no string is greater than a later
    one. *)
Theorem sorted_keys_sorted_permutation (keys : list pystr) :
  StronglySorted pystr_le (sorted_keys keys)
  /\ Permutation keys (sorted_keys keys).
Proof. apply sorted_keys_sorted_perm. Qed.

(** X23.  From the words to the listing: the keys that [format_results]
    lists for the table of [count_words] are strictly increasing, and are
    exactly the folded forms of the words. *)
Theorem listed_words_strictly_increasing (words : list pystr) :
  let listed := sorted_keys (PyDict.keys (Words.count_words words)) in
  StronglySorted (fun a b => pystr_ltb a b = true) listed
  /\ forall k, In k listed
               <-> exists w, In w words /\ Words.lower_word w = k.
Proof.
  intros listed.
  destruct (sorted_keys_sorted_perm (PyDict.keys (count_words words)))
    as [S P].
  split.
  - apply strict_of_nodup; [exact S|].
    apply (Permutation_NoDup P), WordsExtra.count_words_keys_nodup.
  - intros k. rewrite <- WordsExtra.count_words_keys_in. split.
    + apply Permutation_in. now apply Permutation_sym.
    + now apply Permutation_in.
Qed.

End OutputProofs.
